(** * The semantic SVG generator: layout resolution

    A shallow embedding of the semantic generator (the module that
    imports [./schema-semantic.js]) and of the schema it works on.

    Numbers.  A JavaScript [number] is modelled as a real number: the
    arithmetic of the generator ([+], [-], [*], [/], [Math.sqrt],
    [Math.cos], [Math.sin], [Math.PI]) is the exact one, rounding and the
    special values of IEEE 754 are outside of the model.  Where a property
    depends on the rounding, the module [Double] embeds [calculateBounds]
    a second time, over binary64.

    Text.  The generator builds its markup with template literals.  A
    template literal is modelled as the list of its pieces, in order: a
    literal chunk or an interpolated string is a [Str], an interpolated
    number is a [Num].  The JavaScript string is the concatenation of the
    pieces once every number is printed.

    Non-termination.  [processLayer] recurses without any bound of its
    own; its embedding takes the depth that the call stack allows as
    [fuel] and answers [None] when it is exhausted. *)

From Stdlib Require Import Reals Lra Ascii String.
From Stdlib Require PrimFloat.
From stdpp Require Import gmap strings list.

(** ** Schema (schema-semantic) *)

Record ShapeStyle : Type := {
  fill : option string;
  stroke : option string;
  strokeWidth : option R;
  opacity : option R
}.

(** [Alignment] is a union of string literals; the value met at run time
    is a string, and an absent field is [None]. *)
Definition Alignment : Type := string.

(** [Position]: the [type] tag selects the constructor, which carries the
    fields that the generator reads under that tag ([x!] and [y!] for
    ['absolute']; [relativeTo?], [alignment?], [offset?] for
    ['relative']). *)
Inductive Position : Type :=
  | absolute (x y : R)
  | centered
  | relative (relativeTo : option string) (alignment : option Alignment)
             (offset : option R).

Inductive TriangleType : Type := equilateral | isosceles | right_angled.

Inductive Orientation : Type :=
  pointing_up | pointing_down | pointing_left | pointing_right.

(** [ShapeDefinition]: the union of the six shape interfaces, tagged by
    [shapeType]. *)
Inductive ShapeDefinition : Type :=
  | triangle (triangleType : TriangleType) (orientation : Orientation) (size : R)
  | rectangle (width height : R) (rounded : option R)
  | circle (radius : R)
  | ellipse (radiusX radiusY : R)
  | line (length angle : R)
  | diamond (size : R).

Module SemanticLayer.
Record t : Type := mk {
  id : string;
  shape : ShapeDefinition;
  position : Position;
  style : ShapeStyle;
  description : option string
}.
End SemanticLayer.

Module CanvasSize.
Record t : Type := mk { width : R; height : R }.
End CanvasSize.

Module SemanticSvgSpec.
Record t : Type := mk {
  name : string;
  description : string;
  canvasSize : CanvasSize.t;
  layers : list SemanticLayer.t
}.
End SemanticSvgSpec.

(** ** Calculated shapes (semantic generator) *)

Module Bounds.
Record t : Type := mk { left : R; right : R; top : R; bottom : R }.
End Bounds.

Module CalculatedShape.
Record t : Type := mk {
  id : string;
  centerX : R;
  centerY : R;
  bounds : Bounds.t
}.
End CalculatedShape.

Module Point.
Record t : Type := mk { x : R; y : R }.
End Point.

(** ** Template literals *)

Inductive piece : Type :=
  | Str (s : string)
  | Num (n : R).

Definition text : Type := list piece.

Definition quote : string := String "034"%char EmptyString.
Definition newline : string := String "010"%char EmptyString.

(** [parts.join(sep)] *)
Fixpoint join (sep : string) (parts : list text) : text :=
  match parts with
  | [] => []
  | [p] => p
  | p :: rest => p ++ Str sep :: join sep rest
  end.

(** The only [Error] that a run over a well-typed specification throws:
    [Reference shape "<relativeTo>" not found], thrown by
    [calculatePosition].  ([layerToSvg] throws on a [shapeType] outside
    of the six of [ShapeDefinition], which the type excludes.) *)
Inductive error : Type :=
  | ReferenceNotFound (relativeTo : string).

(** ** Geometry *)

Section Geometry.
Local Open Scope R_scope.

(** [calculateTriangle]: the [points] attribute of the polygon. *)
Definition calculateTriangle (shape : ShapeDefinition) (centerX centerY : R) : text :=
  let fallback :=
    [Num centerX; Str ","; Num (centerY - 50); Str " ";
     Num (centerX - 50); Str ","; Num (centerY + 50); Str " ";
     Num (centerX + 50); Str ","; Num (centerY + 50)] in
  match shape with
  | triangle equilateral orientation size =>
      let height := (size * sqrt 3) / 2 in
      match orientation with
      | pointing_right =>
          [Num (centerX - size/2); Str ","; Num (centerY - height/2); Str " ";
           Num (centerX - size/2); Str ","; Num (centerY + height/2); Str " ";
           Num (centerX + size/2); Str ","; Num centerY]
      | pointing_left =>
          [Num (centerX + size/2); Str ","; Num (centerY - height/2); Str " ";
           Num (centerX + size/2); Str ","; Num (centerY + height/2); Str " ";
           Num (centerX - size/2); Str ","; Num centerY]
      | pointing_up =>
          [Num centerX; Str ","; Num (centerY - height/2); Str " ";
           Num (centerX - size/2); Str ","; Num (centerY + height/2); Str " ";
           Num (centerX + size/2); Str ","; Num (centerY + height/2)]
      | pointing_down =>
          [Num centerX; Str ","; Num (centerY + height/2); Str " ";
           Num (centerX - size/2); Str ","; Num (centerY - height/2); Str " ";
           Num (centerX + size/2); Str ","; Num (centerY - height/2)]
      end
  | _ => fallback
  end.

(** [calculateBounds] *)
Definition calculateBounds (shape : ShapeDefinition) (centerX centerY : R) : Bounds.t :=
  match shape with
  | circle radius =>
      {| Bounds.left := centerX - radius;
         Bounds.right := centerX + radius;
         Bounds.top := centerY - radius;
         Bounds.bottom := centerY + radius |}
  | rectangle width height _ =>
      {| Bounds.left := centerX - width / 2;
         Bounds.right := centerX + width / 2;
         Bounds.top := centerY - height / 2;
         Bounds.bottom := centerY + height / 2 |}
  | triangle _ orientation size =>
      let height := (size * sqrt 3) / 2 in
      match orientation with
      | pointing_right =>
          {| Bounds.left := centerX - size/2;
             Bounds.right := centerX + size/2;
             Bounds.top := centerY - height/2;
             Bounds.bottom := centerY + height/2 |}
      | pointing_left =>
          {| Bounds.left := centerX - size/2;
             Bounds.right := centerX + size/2;
             Bounds.top := centerY - height/2;
             Bounds.bottom := centerY + height/2 |}
      | _ =>
          {| Bounds.left := centerX - size/2;
             Bounds.right := centerX + size/2;
             Bounds.top := centerY - size/2;
             Bounds.bottom := centerY + size/2 |}
      end
  | diamond size =>
      let halfSize := size / 2 in
      {| Bounds.left := centerX - halfSize;
         Bounds.right := centerX + halfSize;
         Bounds.top := centerY - halfSize;
         Bounds.bottom := centerY + halfSize |}
  | _ =>
      {| Bounds.left := centerX - 50;
         Bounds.right := centerX + 50;
         Bounds.top := centerY - 50;
         Bounds.bottom := centerY + 50 |}
  end.

End Geometry.

(** ** Position *)

(** Truthiness of an optional string field: absent and empty are falsy. *)
Definition truthy (s : option string) : option string :=
  match s with
  | Some s => if decide (s = EmptyString) then None else Some s
  | None => None
  end.

(** The identifier guarded by
    [position.type === 'relative' && position.relativeTo], the test that
    [calculatePosition] and [processLayer] share. *)
Definition referent (position : Position) : option string :=
  match position with
  | relative relativeTo _ _ => truthy relativeTo
  | _ => None
  end.

Section Resolver.
Local Open Scope R_scope.

(** [calculatePosition], reading the module-level [calculatedShapes]. *)
Definition calculatePosition (calculatedShapes : gmap string CalculatedShape.t)
    (layer : SemanticLayer.t) (canvasWidth canvasHeight : R) : error + Point.t :=
  match SemanticLayer.position layer with
  | absolute x y => inr {| Point.x := x; Point.y := y |}
  | centered => inr {| Point.x := canvasWidth / 2; Point.y := canvasHeight / 2 |}
  | relative relativeTo alignment offset =>
      match truthy relativeTo with
      | Some relativeTo =>
          match calculatedShapes !! relativeTo with
          | None => inl (ReferenceNotFound relativeTo)
          | Some reference =>
              let offset := default 0 offset in
              let bounds := CalculatedShape.bounds reference in
              let centerX := CalculatedShape.centerX reference in
              let centerY := CalculatedShape.centerY reference in
              if decide (alignment = Some "tip_touches_left"%string) then
                inr {| Point.x := Bounds.left bounds + offset; Point.y := centerY |}
              else if decide (alignment = Some "tip_touches_right"%string) then
                inr {| Point.x := Bounds.right bounds + offset; Point.y := centerY |}
              else if decide (alignment = Some "tip_touches_top"%string) then
                inr {| Point.x := centerX; Point.y := Bounds.top bounds + offset |}
              else if decide (alignment = Some "tip_touches_bottom"%string) then
                inr {| Point.x := centerX; Point.y := Bounds.bottom bounds + offset |}
              else if decide (alignment = Some "center_aligned"%string) then
                inr {| Point.x := centerX; Point.y := centerY |}
              else if decide (alignment = Some "adjacent_left"%string) then
                inr {| Point.x := Bounds.left bounds - offset; Point.y := centerY |}
              else if decide (alignment = Some "adjacent_right"%string) then
                inr {| Point.x := Bounds.right bounds + offset; Point.y := centerY |}
              else
                inr {| Point.x := centerX; Point.y := centerY |}
          end
      | None =>
          (* Default to center *)
          inr {| Point.x := canvasWidth / 2; Point.y := canvasHeight / 2 |}
      end
  end.

(** ** Markup of one layer *)

(** [name="value"] *)
Definition attr (name : string) (value : piece) : text :=
  [Str name; Str "="; Str quote; value; Str quote].

Definition optAttr {A} (name : string) (f : A → piece) (value : option A) : list text :=
  match value with
  | Some v => [attr name (f v)]
  | None => []
  end.

(** [layerToSvg] *)
Definition layerToSvg (layer : SemanticLayer.t) (centerX centerY : R) : text :=
  let id := SemanticLayer.id layer in
  let shape := SemanticLayer.shape layer in
  let style := SemanticLayer.style layer in
  let styleAttrs : list text :=
    [attr "id" (Str id)]
    ++ optAttr "fill" Str (fill style)
    ++ optAttr "stroke" Str (stroke style)
    ++ optAttr "stroke-width" Num (strokeWidth style)
    ++ optAttr "opacity" Num (opacity style) in
  let comment : text :=
    match truthy (SemanticLayer.description layer) with
    | Some description => [Str "  <!-- "; Str description; Str " -->"; Str newline]
    | None => []
    end in
  let element (tag : string) (attrs : list text) : text :=
    comment ++ [Str "  <"; Str tag; Str " "] ++ join " " attrs ++ [Str " />"] in
  match shape with
  | triangle _ _ _ =>
      let points := calculateTriangle shape centerX centerY in
      comment ++ [Str "  <polygon "] ++ join " " styleAttrs
        ++ [Str " points="; Str quote] ++ points ++ [Str quote; Str " />"]
  | circle radius =>
      element "circle"
        (styleAttrs ++ [attr "cx" (Num centerX); attr "cy" (Num centerY);
                        attr "r" (Num radius)])
  | rectangle width height rounded =>
      let x := centerX - width / 2 in
      let y := centerY - height / 2 in
      let attrs := styleAttrs ++ [attr "x" (Num x); attr "y" (Num y);
                                  attr "width" (Num width); attr "height" (Num height)] in
      let attrs :=
        match rounded with
        | Some r => if Req_dec_T r 0 then attrs else attrs ++ [attr "rx" (Num r)]
        | None => attrs
        end in
      element "rect" attrs
  | ellipse radiusX radiusY =>
      element "ellipse"
        (styleAttrs ++ [attr "cx" (Num centerX); attr "cy" (Num centerY);
                        attr "rx" (Num radiusX); attr "ry" (Num radiusY)])
  | line length angle =>
      let angle := (angle * PI) / 180 in
      let halfLength := length / 2 in
      let x1 := centerX - cos angle * halfLength in
      let y1 := centerY - sin angle * halfLength in
      let x2 := centerX + cos angle * halfLength in
      let y2 := centerY + sin angle * halfLength in
      element "line"
        (styleAttrs ++ [attr "x1" (Num x1); attr "y1" (Num y1);
                        attr "x2" (Num x2); attr "y2" (Num y2)])
  | diamond size =>
      let halfSize := size / 2 in
      let points :=
        [Num centerX; Str ","; Num (centerY - halfSize); Str " ";
         Num (centerX + halfSize); Str ","; Num centerY; Str " ";
         Num centerX; Str ","; Num (centerY + halfSize); Str " ";
         Num (centerX - halfSize); Str ","; Num centerY] in
      comment ++ [Str "  <polygon "] ++ join " " styleAttrs
        ++ [Str " points="; Str quote] ++ points ++ [Str quote; Str " />"]
  end.

End Resolver.

(** ** Dependency order *)

(** The variables that [processLayer] closes over and mutates. *)
Record sortState : Type := {
  sorted : list SemanticLayer.t;
  processed : gset string
}.

(** [new Map(layers.map(l => [l.id, l]))]: entries are set one after the
    other, a later layer replaces an earlier one of the same id. *)
Definition setLayer (m : gmap string SemanticLayer.t) (l : SemanticLayer.t)
    : gmap string SemanticLayer.t :=
  <[SemanticLayer.id l := l]> m.

Definition layerMapOf (layers : list SemanticLayer.t) : gmap string SemanticLayer.t :=
  foldl setLayer ∅ layers.

(** [sorted.push(layer); processed.add(layer.id)] *)
Definition push (layer : SemanticLayer.t) (st : sortState) : sortState :=
  {| sorted := sorted st ++ [layer];
     processed := {[SemanticLayer.id layer]} ∪ processed st |}.

(** [processLayer]; [fuel] bounds the depth of the recursion. *)
Fixpoint processLayer (layerMap : gmap string SemanticLayer.t) (fuel : nat)
    (st : sortState) (layer : SemanticLayer.t) : option sortState :=
  match fuel with
  | O => None
  | S fuel =>
      if decide (SemanticLayer.id layer ∈ processed st) then Some st
      else
        let afterRef :=
          match referent (SemanticLayer.position layer) with
          | Some relativeTo =>
              match layerMap !! relativeTo with
              | Some ref =>
                  if decide (SemanticLayer.id ref ∈ processed st) then Some st
                  else processLayer layerMap fuel st ref
              | None => Some st
              end
          | None => Some st
          end in
        push layer <$> afterRef
  end.

(** The loop [for (const layer of layers) processLayer(layer)]. *)
Fixpoint processLayers (layerMap : gmap string SemanticLayer.t) (fuel : nat)
    (st : sortState) (layers : list SemanticLayer.t) : option sortState :=
  match layers with
  | [] => Some st
  | layer :: rest =>
      match processLayer layerMap fuel st layer with
      | Some st => processLayers layerMap fuel st rest
      | None => None
      end
  end.

(** [sortLayersByDependencies] *)
Definition sortLayersByDependencies (fuel : nat) (layers : list SemanticLayer.t)
    : option (list SemanticLayer.t) :=
  let layerMap := layerMapOf layers in
  sorted <$> processLayers layerMap fuel {| sorted := []; processed := ∅ |} layers.

(** ** The run *)

(** The loop of [generateSemanticSvg] over the sorted layers: it reads and
    updates [calculatedShapes], appends to [svg], and stops at the first
    throw, which leaves [calculatedShapes] as it is at that point. *)
Fixpoint resolveLayers (canvasSize : CanvasSize.t) (sortedLayers : list SemanticLayer.t)
    (svg : list text) (calculatedShapes : gmap string CalculatedShape.t)
    : gmap string CalculatedShape.t * (error + list text) :=
  match sortedLayers with
  | [] => (calculatedShapes, inr svg)
  | layer :: rest =>
      match calculatePosition calculatedShapes layer
              (CanvasSize.width canvasSize) (CanvasSize.height canvasSize) with
      | inl e => (calculatedShapes, inl e)
      | inr center =>
          let bounds :=
            calculateBounds (SemanticLayer.shape layer) (Point.x center) (Point.y center) in
          let calculatedShapes :=
            <[SemanticLayer.id layer :=
                {| CalculatedShape.id := SemanticLayer.id layer;
                   CalculatedShape.centerX := Point.x center;
                   CalculatedShape.centerY := Point.y center;
                   CalculatedShape.bounds := bounds |}]> calculatedShapes in
          resolveLayers canvasSize rest
            (svg ++ [layerToSvg layer (Point.x center) (Point.y center)])
            calculatedShapes
      end
  end.

(** The first lines of the document. *)
Definition svgHeader (spec : SemanticSvgSpec.t) : list text :=
  let canvasSize := SemanticSvgSpec.canvasSize spec in
  let width := CanvasSize.width canvasSize in
  let height := CanvasSize.height canvasSize in
  [ [Str "<?xml version="; Str quote; Str "1.0"; Str quote; Str " encoding=";
     Str quote; Str "UTF-8"; Str quote; Str "?>"];
    [Str "<svg xmlns="; Str quote; Str "http://www.w3.org/2000/svg"; Str quote;
     Str " viewBox="; Str quote; Str "0 0 "; Num width; Str " "; Num height; Str quote;
     Str " width="; Str quote; Num width; Str quote;
     Str " height="; Str quote; Num height; Str quote; Str ">"];
    [Str "  <!-- "; Str (SemanticSvgSpec.description spec); Str " -->"];
    [] ].

(** [generateSemanticSvg], started with the module-level map as the
    previous calls left it.  The answer is [None] when the recursion of
    the sort goes deeper than [fuel]; otherwise it is the map as the call
    leaves it, with the thrown error or the returned markup. *)
Definition generateSemanticSvg (fuel : nat) (spec : SemanticSvgSpec.t)
    (calculatedShapes : gmap string CalculatedShape.t)
    : option (gmap string CalculatedShape.t * (error + text)) :=
  let calculatedShapes : gmap string CalculatedShape.t := ∅ in
  match sortLayersByDependencies fuel (SemanticSvgSpec.layers spec) with
  | None => None
  | Some sortedLayers =>
      match resolveLayers (SemanticSvgSpec.canvasSize spec) sortedLayers
              (svgHeader spec) calculatedShapes with
      | (calculatedShapes, inl e) => Some (calculatedShapes, inl e)
      | (calculatedShapes, inr svg) =>
          Some (calculatedShapes, inr (join newline (svg ++ [[Str "</svg>"]])))
      end
  end.

(** ** The bounds as the code computes them, in doubles

    A second embedding of [calculateBounds], over the binary64 numbers
    that a JavaScript [number] is: every [+], [-], [*], [/] and
    [Math.sqrt] below rounds as the code's does. *)

Module Double.
Import PrimFloat.
Local Open Scope float_scope.

Inductive ShapeDefinition : Type :=
  | triangle (triangleType : TriangleType) (orientation : Orientation) (size : float)
  | rectangle (width height : float) (rounded : option float)
  | circle (radius : float)
  | ellipse (radiusX radiusY : float)
  | line (length angle : float)
  | diamond (size : float).

Record Bounds : Type := mkBounds {
  left : float; right : float; top : float; bottom : float
}.

(** [calculateBounds] *)
Definition calculateBounds (shape : ShapeDefinition) (centerX centerY : float) : Bounds :=
  match shape with
  | circle radius =>
      {| left := centerX - radius;
         right := centerX + radius;
         top := centerY - radius;
         bottom := centerY + radius |}
  | rectangle width height _ =>
      {| left := centerX - width / 2;
         right := centerX + width / 2;
         top := centerY - height / 2;
         bottom := centerY + height / 2 |}
  | triangle _ orientation size =>
      let height := (size * sqrt 3) / 2 in
      match orientation with
      | pointing_right =>
          {| left := centerX - size/2;
             right := centerX + size/2;
             top := centerY - height/2;
             bottom := centerY + height/2 |}
      | pointing_left =>
          {| left := centerX - size/2;
             right := centerX + size/2;
             top := centerY - height/2;
             bottom := centerY + height/2 |}
      | _ =>
          {| left := centerX - size/2;
             right := centerX + size/2;
             top := centerY - size/2;
             bottom := centerY + size/2 |}
      end
  | diamond size =>
      let halfSize := size / 2 in
      {| left := centerX - halfSize;
         right := centerX + halfSize;
         top := centerY - halfSize;
         bottom := centerY + halfSize |}
  | _ =>
      {| left := centerX - 50;
         right := centerX + 50;
         top := centerY - 50;
         bottom := centerY + 50 |}
  end.

(** The doubles that the literals [0.1] and [0.2] denote. *)
Definition tenth : float := 0x1.999999999999ap-4.
Definition fifth : float := 0x1.999999999999ap-3.

End Double.

(** * Vocabulary of the properties *)

Section Vocabulary.
Local Open Scope R_scope.

(** ** Geometry and alignments *)

(** The [points] attribute of a vertex list: [x,y x,y ...]. *)
Definition polygonPoints (vertices : list (R * R)) : text :=
  join " " (map (λ v, [Num (fst v); Str ","; Num (snd v)]) vertices).

(** The alignments that the [switch] of [calculatePosition] has a [case]
    for. *)
Definition handledAlignments : list Alignment :=
  ["tip_touches_left"; "tip_touches_right"; "tip_touches_top"; "tip_touches_bottom";
   "center_aligned"; "adjacent_left"; "adjacent_right"]%string.

(** The four directions of the [tip_touches_*] and [edge_touches_*]
    alignments. *)
Definition directions : list string := ["left"; "right"; "top"; "bottom"]%string.

(** The map holds a placement of centre [(x, y)] for [id]. *)
Definition placedAt (calculatedShapes : gmap string CalculatedShape.t)
    (id : string) (x y : R) : Prop :=
  ∃ s, calculatedShapes !! id = Some s
       ∧ CalculatedShape.centerX s = x ∧ CalculatedShape.centerY s = y.

(** The placement that the run records for [layer] at [center]. *)
Definition placement (layer : SemanticLayer.t) (center : Point.t) : CalculatedShape.t :=
  {| CalculatedShape.id := SemanticLayer.id layer;
     CalculatedShape.centerX := Point.x center;
     CalculatedShape.centerY := Point.y center;
     CalculatedShape.bounds :=
       calculateBounds (SemanticLayer.shape layer) (Point.x center) (Point.y center) |}.

(** ** The graph of the references *)

(** [L]'s position is relative to [R], a layer of the list. *)
Definition relativeToLayer (layers : list SemanticLayer.t) (L R : SemanticLayer.t) : Prop :=
  R ∈ layers ∧ referent (SemanticLayer.position L) = Some (SemanticLayer.id R).

(** No layer reaches itself along the references. *)
Definition acyclic (layers : list SemanticLayer.t) : Prop :=
  ∀ L, L ∈ layers → ¬ tc (relativeToLayer layers) L L.

(** Some layer reaches itself along the references. *)
Definition cyclic (layers : list SemanticLayer.t) : Prop :=
  ∃ L, L ∈ layers ∧ tc (relativeToLayer layers) L L.

(** Every identifier that a relative position names is the id of a layer. *)
Definition referentsExist (layers : list SemanticLayer.t) : Prop :=
  ∀ L r, L ∈ layers → referent (SemanticLayer.position L) = Some r →
         r ∈ SemanticLayer.id <$> layers.

(** [a] comes strictly before [b] in [l]. *)
Definition precedes {A} (a b : A) (l : list A) : Prop :=
  ∃ l1 l2 l3, l = l1 ++ a :: l2 ++ b :: l3.

(** The [type] of the position is ['relative']. *)
Definition isRelative (position : Position) : bool :=
  match position with relative _ _ _ => true | _ => false end.

(** In [s], the referent of a layer, when it is a layer of [layers], comes
    before it. *)
Definition referentsFirst (layers s : list SemanticLayer.t) : Prop :=
  ∀ s1 L s2 name,
    s = s1 ++ L :: s2 →
    referent (SemanticLayer.position L) = Some name →
    name ∈ SemanticLayer.id <$> layers →
    name ∈ SemanticLayer.id <$> s1.

(** What holds of [sorted] and [processed] between two calls of
    [processLayer] on the layers of [layers]. *)
Record sortInv (layers : list SemanticLayer.t) (st : sortState) : Prop := {
  inv_processed : ∀ x, x ∈ processed st ↔ x ∈ SemanticLayer.id <$> sorted st;
  inv_layers : ∀ l, l ∈ sorted st → l ∈ layers;
  inv_NoDup : NoDup (SemanticLayer.id <$> sorted st);
  inv_referentsFirst : referentsFirst layers (sorted st)
}.

(** No layer of a cycle is processed. *)
Definition cycleFree (layers : list SemanticLayer.t) (st : sortState) : Prop :=
  ∀ L, L ∈ layers → tc (relativeToLayer layers) L L →
       SemanticLayer.id L ∉ processed st.

(** Follow the references from [l] for at most [fuel] steps: does the
    chain end? *)
Fixpoint chainEnds (layerMap : gmap string SemanticLayer.t) (fuel : nat)
    (l : SemanticLayer.t) : bool :=
  match fuel with
  | O => false
  | S fuel =>
      match referent (SemanticLayer.position l) with
      | Some name =>
          match layerMap !! name with
          | Some ref => chainEnds layerMap fuel ref
          | None => true
          end
      | None => true
      end
  end.

(** No chain of references from a layer goes on for more steps than there
    are layers. *)
Definition acyclicb (layers : list SemanticLayer.t) : bool :=
  forallb (chainEnds (layerMapOf layers) (length layers)) layers.

(** ** Sample data: the ISA ball valve of the generator's prompt *)

Definition outline : ShapeStyle :=
  {| fill := Some "none"%string; stroke := Some "#000"%string;
     strokeWidth := Some 2; opacity := None |}.

Definition center_circle : SemanticLayer.t :=
  SemanticLayer.mk "center_circle" (circle 30) centered outline None.

Definition left_tri : SemanticLayer.t :=
  SemanticLayer.mk "left" (triangle equilateral pointing_right 100)
    (relative (Some "center_circle"%string) (Some "tip_touches_left"%string) None)
    outline None.

Definition right_tri : SemanticLayer.t :=
  SemanticLayer.mk "right" (triangle equilateral pointing_left 100)
    (relative (Some "center_circle"%string) (Some "tip_touches_right"%string) None)
    outline None.

Definition ballValve (layers : list SemanticLayer.t) : SemanticSvgSpec.t :=
  SemanticSvgSpec.mk "ball_valve_isa" "ISA standard ball valve symbol"
    (CanvasSize.mk 400 400) layers.

(** The circle of radius 30 placed at (200, 200), as a run records it. *)
Definition placedCircle : CalculatedShape.t :=
  CalculatedShape.mk "center_circle" 200 200 (calculateBounds (circle 30) 200 200).

(** A layer that differs from [left_tri] by its position only. *)
Definition withPosition (position : Position) : SemanticLayer.t :=
  SemanticLayer.mk "left" (triangle equilateral pointing_right 100) position outline None.

(** The triangle of a valve whose body is not among the layers. *)
Definition stray_tri : SemanticLayer.t :=
  SemanticLayer.mk "stray" (triangle equilateral pointing_left 100)
    (relative (Some "valve_body"%string) (Some "tip_touches_right"%string) None)
    outline None.

(** A cycle of two: [A] is relative to [B], and [B] to [A]. *)
Definition layerA : SemanticLayer.t :=
  SemanticLayer.mk "A" (circle 30)
    (relative (Some "B"%string) (Some "adjacent_left"%string) None) outline None.

Definition layerB : SemanticLayer.t :=
  SemanticLayer.mk "B" (circle 30)
    (relative (Some "A"%string) (Some "adjacent_right"%string) None) outline None.

Definition twoCycle : SemanticSvgSpec.t :=
  SemanticSvgSpec.mk "two_cycle" "A and B placed on each other"
    (CanvasSize.mk 400 400) [layerA; layerB].

(** ** Further vocabulary: geometry of the markup, duplicate ids *)

(** The point [v] is inside of the box [b], sides included. *)
Definition inBounds (b : Bounds.t) (v : R * R) : Prop :=
  Bounds.left b <= fst v <= Bounds.right b
  ∧ Bounds.top b <= snd v <= Bounds.bottom b.

(** The layers of [layers] whose id is not in [seen] and is not the id of
    a layer before them, in order. *)
Fixpoint firstOfEachId (seen : gset string) (layers : list SemanticLayer.t)
    : list SemanticLayer.t :=
  match layers with
  | [] => []
  | l :: rest =>
      if decide (SemanticLayer.id l ∈ seen) then firstOfEachId seen rest
      else l :: firstOfEachId ({[SemanticLayer.id l]} ∪ seen) rest
  end.

(** The markup of [layer] at the centre that the map holds for its id. *)
Definition renderAt (calculatedShapes : gmap string CalculatedShape.t)
    (layer : SemanticLayer.t) : text :=
  match calculatedShapes !! SemanticLayer.id layer with
  | Some placed =>
      layerToSvg layer (CalculatedShape.centerX placed) (CalculatedShape.centerY placed)
  | None => []
  end.

(** A layer of the given shape, placed by a relative position or not. *)
Definition shaped (id : string) (shape : ShapeDefinition) (position : Position)
    : SemanticLayer.t :=
  SemanticLayer.mk id shape position outline None.

End Vocabulary.

(** * Properties *)

(** A decidable fact about the sample data, settled by evaluation. *)
Ltac by_evaluation := apply (bool_decide_unpack _); vm_compute; reflexivity.

(** ** Geometry kernel *)

Section GeometryFacts.
Local Open Scope R_scope.

Lemma sqrt3_bounds : 1.732 < sqrt 3 < 1.7321.
Proof.
  pose proof (sqrt_pos 3) as Hpos.
  assert (Hsq : sqrt 3 * sqrt 3 = 3) by (apply sqrt_sqrt; lra).
  split; nra.
Qed.

(** C7: the vertex list of an equilateral triangle of side [s] centred at
    [(cx, cy)], with [h = s·√3/2], for each of the four orientations; and
    at size 100, pointing right, centre (0,0) the vertices are
    (−50, −y), (−50, y), (50, 0) with y = 43.30… *)
Theorem calculateTriangle_equilateral_vertices (s cx cy : R) :
  let h := s * sqrt 3 / 2 in
  calculateTriangle (triangle equilateral pointing_right s) cx cy
    = polygonPoints [(cx - s/2, cy - h/2); (cx - s/2, cy + h/2); (cx + s/2, cy)]
  ∧ calculateTriangle (triangle equilateral pointing_left s) cx cy
    = polygonPoints [(cx + s/2, cy - h/2); (cx + s/2, cy + h/2); (cx - s/2, cy)]
  ∧ calculateTriangle (triangle equilateral pointing_up s) cx cy
    = polygonPoints [(cx, cy - h/2); (cx - s/2, cy + h/2); (cx + s/2, cy + h/2)]
  ∧ calculateTriangle (triangle equilateral pointing_down s) cx cy
    = polygonPoints [(cx, cy + h/2); (cx - s/2, cy - h/2); (cx + s/2, cy - h/2)]
  ∧ ∃ y : R,
      calculateTriangle (triangle equilateral pointing_right 100) 0 0
        = polygonPoints [(-50, - y); (-50, y); (50, 0)]
      ∧ 43.30 < y < 43.31.
Proof.
  intros h. repeat split; try reflexivity.
  exists (100 * sqrt 3 / 2 / 2). split.
  - unfold calculateTriangle, polygonPoints. simpl.
    repeat (f_equal; try lra).
  - pose proof sqrt3_bounds. lra.
Qed.

(** In exact arithmetic the box of [calculateBounds] is symmetric about
    the centre, whatever the shape, the kinds without a case of their own
    included. *)
Lemma calculateBounds_symmetric (shape : ShapeDefinition) (cx cy : R) :
  Bounds.left (calculateBounds shape cx cy) + Bounds.right (calculateBounds shape cx cy)
    = 2 * cx
  ∧ Bounds.top (calculateBounds shape cx cy) + Bounds.bottom (calculateBounds shape cx cy)
    = 2 * cy.
Proof.
  destruct shape as [tt o s | w h r | r | rx ry | len a | s];
    try destruct o; simpl; split; lra.
Qed.

End GeometryFacts.

(** ** The bounds in doubles *)

Section BoundsInDoubles.
Import PrimFloat.

(** C9, as the code has it: whatever the shape, the kinds without a case
    of their own included, the box is built about the centre from one
    half-width [dx] and one half-height [dy] that depend on the shape
    alone: for every centre, left and right are [centerX - dx] and
    [centerX + dx], top and bottom are [centerY - dy] and [centerY + dy],
    each one rounded to a double. *)
Theorem calculateBounds_built_about_center (shape : Double.ShapeDefinition) :
  ∃ dx dy : float, ∀ centerX centerY : float,
    Double.left (Double.calculateBounds shape centerX centerY) = (centerX - dx)%float
    ∧ Double.right (Double.calculateBounds shape centerX centerY) = (centerX + dx)%float
    ∧ Double.top (Double.calculateBounds shape centerX centerY) = (centerY - dy)%float
    ∧ Double.bottom (Double.calculateBounds shape centerX centerY) = (centerY + dy)%float.
Proof.
  destruct shape as [tt o s | w h r | r | rx ry | len a | s];
    try destruct o; simpl; by eexists _, _.
Qed.

(** The sum of left and right is not always twice the centre in the
    doubles of the code: for the circle of radius 0.2 centred at
    (0.1, 0.1), left is -0.1 and right is 0.30000000000000004; their sum,
    0.20000000000000004, is not 2 * 0.1. *)
Lemma calculateBounds_not_symmetric_in_doubles :
  (Double.left (Double.calculateBounds (Double.circle Double.fifth) Double.tenth Double.tenth)
   + Double.right (Double.calculateBounds (Double.circle Double.fifth) Double.tenth Double.tenth))%float
    ≠ (2 * Double.tenth)%float
  ∧ PrimFloat.eqb
      (Double.left (Double.calculateBounds (Double.circle Double.fifth) Double.tenth Double.tenth)
       + Double.right (Double.calculateBounds (Double.circle Double.fifth) Double.tenth Double.tenth))
      (2 * Double.tenth) = false.
Proof.
  assert (Hne : PrimFloat.eqb
      (Double.left (Double.calculateBounds (Double.circle Double.fifth) Double.tenth Double.tenth)
       + Double.right (Double.calculateBounds (Double.circle Double.fifth) Double.tenth Double.tenth))
      (2 * Double.tenth) = false) by (vm_compute; reflexivity).
  split; [|exact Hne].
  intros Heq. rewrite Heq in Hne. vm_compute in Hne. discriminate Hne.
Qed.

End BoundsInDoubles.

(** ** Position resolver *)

Section ResolverFacts.
Local Open Scope R_scope.

Lemma truthy_Some (r : string) : r ≠ EmptyString → truthy (Some r) = Some r.
Proof. intros Hr. unfold truthy. by rewrite decide_False. Qed.

Lemma truthy_inv (s : option string) (r : string) :
  truthy s = Some r → s = Some r ∧ r ≠ EmptyString.
Proof.
  destruct s as [s|]; simpl; [|done].
  case_decide; [done|]. by intros [= ->].
Qed.

Lemma referent_inv (p : Position) (r : string) :
  referent p = Some r →
  r ≠ EmptyString ∧ ∃ alignment offset, p = relative (Some r) alignment offset.
Proof.
  destruct p as [| |rt a o]; simpl; try done.
  intros [-> Hr]%truthy_inv. eauto.
Qed.

(** The branch of [calculatePosition] taken once the referent is found. *)
Lemma calculatePosition_found cs layer w h r alignment offset ref :
  SemanticLayer.position layer = relative (Some r) alignment offset →
  r ≠ EmptyString →
  cs !! r = Some ref →
  calculatePosition cs layer w h =
    let offset := default 0 offset in
    let bounds := CalculatedShape.bounds ref in
    let centerX := CalculatedShape.centerX ref in
    let centerY := CalculatedShape.centerY ref in
    if decide (alignment = Some "tip_touches_left"%string) then
      inr {| Point.x := Bounds.left bounds + offset; Point.y := centerY |}
    else if decide (alignment = Some "tip_touches_right"%string) then
      inr {| Point.x := Bounds.right bounds + offset; Point.y := centerY |}
    else if decide (alignment = Some "tip_touches_top"%string) then
      inr {| Point.x := centerX; Point.y := Bounds.top bounds + offset |}
    else if decide (alignment = Some "tip_touches_bottom"%string) then
      inr {| Point.x := centerX; Point.y := Bounds.bottom bounds + offset |}
    else if decide (alignment = Some "center_aligned"%string) then
      inr {| Point.x := centerX; Point.y := centerY |}
    else if decide (alignment = Some "adjacent_left"%string) then
      inr {| Point.x := Bounds.left bounds - offset; Point.y := centerY |}
    else if decide (alignment = Some "adjacent_right"%string) then
      inr {| Point.x := Bounds.right bounds + offset; Point.y := centerY |}
    else
      inr {| Point.x := centerX; Point.y := centerY |}.
Proof.
  intros Hpos Hr Hcs. unfold calculatePosition.
  by rewrite Hpos, (truthy_Some r Hr), Hcs.
Qed.

(** An alignment without a [case] falls to [default]. *)
Lemma calculatePosition_default cs layer w h r alignment offset ref :
  SemanticLayer.position layer = relative (Some r) alignment offset →
  r ≠ EmptyString →
  cs !! r = Some ref →
  (∀ a, alignment = Some a → a ∉ handledAlignments) →
  calculatePosition cs layer w h
    = inr {| Point.x := CalculatedShape.centerX ref;
             Point.y := CalculatedShape.centerY ref |}.
Proof.
  intros Hpos Hr Hcs Hun.
  rewrite (calculatePosition_found _ _ _ _ _ _ _ _ Hpos Hr Hcs). simpl.
  repeat case_decide; try reflexivity;
    exfalso; (eapply Hun; [eassumption|]); unfold handledAlignments; set_solver.
Qed.

(** C2: the centre of a relative position whose referent [r] has the
    placement [ref] in the mapping, alignment by alignment, with the
    offset read as 0 when absent; an alignment outside of the table, or
    none, gives the centre of the referent. *)
Theorem calculatePosition_alignment_table cs layer w h r alignment offset ref :
  SemanticLayer.position layer = relative (Some r) alignment offset →
  r ≠ EmptyString →
  cs !! r = Some ref →
  let off := default 0 offset in
  let b := CalculatedShape.bounds ref in
  let cX := CalculatedShape.centerX ref in
  let cY := CalculatedShape.centerY ref in
  let center := calculatePosition cs layer w h in
  (alignment = Some "tip_touches_left"%string →
     center = inr (Point.mk (Bounds.left b + off) cY))
  ∧ (alignment = Some "tip_touches_right"%string →
     center = inr (Point.mk (Bounds.right b + off) cY))
  ∧ (alignment = Some "tip_touches_top"%string →
     center = inr (Point.mk cX (Bounds.top b + off)))
  ∧ (alignment = Some "tip_touches_bottom"%string →
     center = inr (Point.mk cX (Bounds.bottom b + off)))
  ∧ (alignment = Some "center_aligned"%string →
     center = inr (Point.mk cX cY))
  ∧ (alignment = Some "adjacent_left"%string →
     center = inr (Point.mk (Bounds.left b - off) cY))
  ∧ (alignment = Some "adjacent_right"%string →
     center = inr (Point.mk (Bounds.right b + off) cY))
  ∧ ((∀ a, alignment = Some a → a ∉ handledAlignments) →
     center = inr (Point.mk cX cY))
  ∧ (offset = None → off = 0).
Proof.
  intros Hpos Hr Hcs off b cX cY center.
  assert (Hc := calculatePosition_found cs layer w h r alignment offset ref Hpos Hr Hcs).
  fold center in Hc. simpl in Hc. fold off b cX cY in Hc.
  repeat split; try (intros ->; exact Hc).
  - intros Hun. subst center.
    by apply (calculatePosition_default _ _ _ _ _ _ _ _ Hpos Hr Hcs).
  - by intros ->.
Qed.

Lemma calculatePosition_alignment_table_witness :
  calculatePosition {[ "center_circle"%string := placedCircle ]}
      (withPosition (relative (Some "center_circle"%string)
                       (Some "adjacent_left"%string) (Some 5)))
      400 400
    = inr (Point.mk (Bounds.left (CalculatedShape.bounds placedCircle) - 5) 200).
Proof.
  refine (proj1 (proj2 (proj2 (proj2 (proj2 (proj2
    (calculatePosition_alignment_table {[ "center_circle"%string := placedCircle ]}
       (withPosition (relative (Some "center_circle"%string)
                        (Some "adjacent_left"%string) (Some 5)))
       400 400 "center_circle" (Some "adjacent_left"%string) (Some 5) placedCircle
       eq_refl _ _)))))) eq_refl).
  - discriminate.
  - apply lookup_singleton_eq.
Defined.

(** C6, as the code has it: [edge_touches_D] has no [case] in the
    [switch]; it falls to [default] and gives the centre of the referent,
    whatever the offset, which is what [center_aligned] gives. *)
Theorem edge_touches_resolves_as_center_aligned
    cs layer layer' w h r D alignment' offset offset' ref :
  D ∈ directions →
  SemanticLayer.position layer
    = relative (Some r) (Some ("edge_touches_" +:+ D)) offset →
  SemanticLayer.position layer' = relative (Some r) alignment' offset' →
  alignment' = Some "center_aligned"%string ∨ alignment' = None →
  r ≠ EmptyString →
  cs !! r = Some ref →
  calculatePosition cs layer w h
    = inr (Point.mk (CalculatedShape.centerX ref) (CalculatedShape.centerY ref))
  ∧ calculatePosition cs layer w h = calculatePosition cs layer' w h.
Proof.
  intros HD Hpos Hpos' Ha' Hr Hcs.
  assert (calculatePosition cs layer w h
    = inr (Point.mk (CalculatedShape.centerX ref) (CalculatedShape.centerY ref))) as ->.
  { apply (calculatePosition_default _ _ _ _ _ _ _ _ Hpos Hr Hcs).
    intros a [= <-]. unfold directions in HD. unfold handledAlignments.
    repeat (apply elem_of_cons in HD as [-> | HD];
            [intros Hin; by repeat (apply elem_of_cons in Hin as [Hin | Hin];
                                    [discriminate Hin|]);
                         apply elem_of_nil in Hin |]).
    by apply elem_of_nil in HD. }
  split; [reflexivity|].
  rewrite (calculatePosition_found _ _ _ _ _ _ _ _ Hpos' Hr Hcs).
  by destruct Ha' as [-> | ->].
Qed.

Lemma edge_touches_resolves_as_center_aligned_witness :
  calculatePosition {[ "center_circle"%string := placedCircle ]}
      (withPosition (relative (Some "center_circle"%string)
                       (Some "edge_touches_left"%string) (Some 5)))
      400 400
    = inr (Point.mk 200 200).
Proof.
  refine (proj1
    (edge_touches_resolves_as_center_aligned
       {[ "center_circle"%string := placedCircle ]}
       (withPosition (relative (Some "center_circle"%string)
                        (Some "edge_touches_left"%string) (Some 5)))
       (withPosition (relative (Some "center_circle"%string) None None))
       400 400 "center_circle" "left" None (Some 5) None placedCircle
       _ eq_refl eq_refl _ _ _)).
  - unfold directions. apply elem_of_cons. by left.
  - by right.
  - discriminate.
  - apply lookup_singleton_eq.
Defined.

(** C6 as stated fails: against the circle of radius 30 at (200, 200),
    [edge_touches_left] gives (200, 200) and [tip_touches_left] gives
    (170, 200). *)
Lemma edge_touches_left_is_not_tip_touches_left :
  calculatePosition {[ "center_circle"%string := placedCircle ]}
      (withPosition (relative (Some "center_circle"%string)
                       (Some "edge_touches_left"%string) None))
      400 400
  ≠ calculatePosition {[ "center_circle"%string := placedCircle ]}
      (withPosition (relative (Some "center_circle"%string)
                       (Some "tip_touches_left"%string) None))
      400 400.
Proof.
  assert (Hcs : ({[ "center_circle"%string := placedCircle ]}
                   : gmap string CalculatedShape.t) !! "center_circle"%string
                = Some placedCircle) by apply lookup_singleton_eq.
  assert (Hr : "center_circle"%string ≠ EmptyString) by discriminate.
  rewrite (calculatePosition_found _ (withPosition _) _ _ _ _ _ _ eq_refl Hr Hcs).
  rewrite (calculatePosition_found _ (withPosition _) _ _ _ _ _ _ eq_refl Hr Hcs).
  simpl. intros [= Hx]. lra.
Qed.

(** C10: a position of type ['relative'] whose [relativeTo] is absent or
    empty resolves to the centre of the canvas, without any error,
    whatever the canvas and the mapping. *)
Theorem calculatePosition_relative_without_referent
    cs layer w h relativeTo alignment offset :
  SemanticLayer.position layer = relative relativeTo alignment offset →
  relativeTo = None ∨ relativeTo = Some EmptyString →
  calculatePosition cs layer w h = inr (Point.mk (w / 2) (h / 2)).
Proof.
  intros Hpos [-> | ->]; unfold calculatePosition; by rewrite Hpos.
Qed.

Lemma calculatePosition_relative_without_referent_witness :
  calculatePosition {[ "center_circle"%string := placedCircle ]}
      (withPosition (relative (Some EmptyString) (Some "tip_touches_left"%string) (Some 5)))
      400 300
    = inr (Point.mk (400 / 2) (300 / 2)).
Proof.
  apply (calculatePosition_relative_without_referent _ (withPosition _) 400 300
           (Some EmptyString) (Some "tip_touches_left"%string) (Some 5) eq_refl).
  by right.
Defined.

End ResolverFacts.

(** ** The map of the layers *)

Section LayerMap.
Implicit Types (layers : list SemanticLayer.t) (m : gmap string SemanticLayer.t).

Lemma foldl_setLayer_fresh layers m name :
  name ∉ SemanticLayer.id <$> layers →
  foldl setLayer m layers !! name = m !! name.
Proof.
  revert m. induction layers as [|a rest IH]; intros m Hfresh; [done|].
  rewrite fmap_cons, not_elem_of_cons in Hfresh. destruct Hfresh as [Hne Hfresh].
  simpl. rewrite (IH _ Hfresh). unfold setLayer. by rewrite lookup_insert_ne.
Qed.

Lemma foldl_setLayer_Some layers m name l :
  foldl setLayer m layers !! name = Some l →
  (l ∈ layers ∧ SemanticLayer.id l = name) ∨ m !! name = Some l.
Proof.
  revert m. induction layers as [|a rest IH]; intros m Hl; [by right|].
  simpl in Hl. destruct (IH _ Hl) as [[Hin Hid] | Hm].
  - left. split; [by apply elem_of_cons; right | done].
  - unfold setLayer in Hm. destruct (decide (SemanticLayer.id a = name)) as [<- | Hne].
    + rewrite lookup_insert_eq in Hm. injection Hm as <-. left. split; [apply elem_of_cons; by left | done].
    + rewrite lookup_insert_ne in Hm by done. by right.
Qed.

(** What [layerMap.get] finds is a layer of the list, of the id asked for. *)
Lemma layerMapOf_Some layers name l :
  layerMapOf layers !! name = Some l → l ∈ layers ∧ SemanticLayer.id l = name.
Proof.
  intros [H | H]%foldl_setLayer_Some; [done|]. by rewrite lookup_empty in H.
Qed.

(** With unique ids, [layerMap.get(l.id)] is [l]. *)
Lemma layerMapOf_lookup layers l :
  NoDup (SemanticLayer.id <$> layers) → l ∈ layers →
  layerMapOf layers !! SemanticLayer.id l = Some l.
Proof.
  unfold layerMapOf. generalize (∅ : gmap string SemanticLayer.t).
  induction layers as [|a rest IH]; intros m Hnd Hin; [by apply elem_of_nil in Hin|].
  rewrite fmap_cons in Hnd. apply NoDup_cons in Hnd as [Hfresh Hnd].
  apply elem_of_cons in Hin as [-> | Hin]; simpl.
  - rewrite (foldl_setLayer_fresh _ _ _ Hfresh). unfold setLayer. apply lookup_insert_eq.
  - by apply IH.
Qed.

(** With unique ids, two layers of the list with the same id are one. *)
Lemma layer_id_inj layers l1 l2 :
  NoDup (SemanticLayer.id <$> layers) → l1 ∈ layers → l2 ∈ layers →
  SemanticLayer.id l1 = SemanticLayer.id l2 → l1 = l2.
Proof.
  intros Hnd H1 H2 Hid.
  pose proof (layerMapOf_lookup _ _ Hnd H1) as E1.
  pose proof (layerMapOf_lookup _ _ Hnd H2) as E2.
  rewrite Hid in E1. congruence.
Qed.

End LayerMap.

(** ** Dependency orderer *)

Section ProcessLayer.
Variable layerMap : gmap string SemanticLayer.t.

Lemma processLayer_S fuel st layer :
  processLayer layerMap (S fuel) st layer =
    if decide (SemanticLayer.id layer ∈ processed st) then Some st
    else
      push layer <$>
        match referent (SemanticLayer.position layer) with
        | Some relativeTo =>
            match layerMap !! relativeTo with
            | Some ref =>
                if decide (SemanticLayer.id ref ∈ processed st) then Some st
                else processLayer layerMap fuel st ref
            | None => Some st
            end
        | None => Some st
        end.
Proof. reflexivity. Qed.

(** The ways in which a call of [processLayer] returns. *)
Lemma processLayer_Some_inv fuel st layer st' :
  processLayer layerMap fuel st layer = Some st' →
  ∃ fuel', fuel = S fuel' ∧
  ((SemanticLayer.id layer ∈ processed st ∧ st' = st)
   ∨ ((SemanticLayer.id layer ∉ processed st) ∧ st' = push layer st
      ∧ ∀ name ref, referent (SemanticLayer.position layer) = Some name →
                    layerMap !! name = Some ref →
                    SemanticLayer.id ref ∈ processed st)
   ∨ ((SemanticLayer.id layer ∉ processed st)
      ∧ ∃ name ref st1,
          referent (SemanticLayer.position layer) = Some name
          ∧ layerMap !! name = Some ref
          ∧ (SemanticLayer.id ref ∉ processed st)
          ∧ processLayer layerMap fuel' st ref = Some st1
          ∧ st' = push layer st1)).
Proof.
  destruct fuel as [|fuel']; [done|]. intros H. exists fuel'. split; [done|].
  rewrite processLayer_S in H.
  destruct (decide (SemanticLayer.id layer ∈ processed st)) as [Hin|Hnin].
  { left. split; [done | congruence]. }
  right.
  destruct (referent (SemanticLayer.position layer)) as [name|] eqn:Href.
  - destruct (layerMap !! name) as [ref|] eqn:Hget.
    + destruct (decide (SemanticLayer.id ref ∈ processed st)) as [Hp|Hp].
      * left. repeat split; [done | simpl in H; congruence |].
        intros ? ? [= <-] ?. congruence.
      * right. split; [done|].
        destruct (processLayer layerMap fuel' st ref) as [st1|] eqn:Hrec; [|done].
        exists name, ref, st1. repeat split; try done. simpl in H. congruence.
    + left. repeat split; [done | simpl in H; congruence |].
      intros ? ? [= <-] ?. congruence.
  - left. repeat split; [done | simpl in H; congruence |]. intros ? ? [=].
Qed.

(** A call on a layer that is processed already. *)
Lemma processLayer_processed fuel st layer :
  SemanticLayer.id layer ∈ processed st →
  processLayer layerMap (S fuel) st layer = Some st.
Proof. intros H. rewrite processLayer_S. by rewrite decide_True. Qed.

(** A call that has no referent to process first. *)
Lemma processLayer_push fuel st layer :
  SemanticLayer.id layer ∉ processed st →
  (∀ name ref, referent (SemanticLayer.position layer) = Some name →
               layerMap !! name = Some ref →
               SemanticLayer.id ref ∈ processed st) →
  processLayer layerMap (S fuel) st layer = Some (push layer st).
Proof.
  intros Hnin Hrefs. rewrite processLayer_S, decide_False by done.
  destruct (referent (SemanticLayer.position layer)) as [name|]; [|done].
  destruct (layerMap !! name) as [ref|] eqn:Hget; [|done].
  by rewrite decide_True by eauto.
Qed.

(** A call that processes the referent first. *)
Lemma processLayer_rec fuel st layer name ref :
  SemanticLayer.id layer ∉ processed st →
  referent (SemanticLayer.position layer) = Some name →
  layerMap !! name = Some ref →
  SemanticLayer.id ref ∉ processed st →
  processLayer layerMap (S fuel) st layer
    = push layer <$> processLayer layerMap fuel st ref.
Proof.
  intros Hnin Href Hget Hp. rewrite processLayer_S.
  rewrite decide_False by done. rewrite Href, Hget.
  by rewrite decide_False by done.
Qed.

(** More fuel does not change a result. *)
Lemma processLayer_mono fuel fuel' st layer st' :
  fuel ≤ fuel' →
  processLayer layerMap fuel st layer = Some st' →
  processLayer layerMap fuel' st layer = Some st'.
Proof.
  revert fuel' st layer st'.
  induction fuel as [|n IH]; intros fuel' st layer st' Hle H; [done|].
  destruct fuel' as [|m]; [lia|].
  apply processLayer_Some_inv in H as (n' & [= <-] & H).
  destruct H as [[Hin ->] | [(Hnin & -> & Hrefs) | (Hnin & name & ref & st1 & Href & Hget & Hp & Hrec & ->)]].
  - by apply processLayer_processed.
  - by apply processLayer_push.
  - rewrite (processLayer_rec _ _ _ _ _ Hnin Href Hget Hp).
    rewrite (IH m st ref st1); [done | lia | done].
Qed.

Lemma processLayers_mono fuel fuel' st layers st' :
  fuel ≤ fuel' →
  processLayers layerMap fuel st layers = Some st' →
  processLayers layerMap fuel' st layers = Some st'.
Proof.
  intros Hle. revert st. induction layers as [|l rest IH]; intros st H; [done|].
  simpl in *. destruct (processLayer layerMap fuel st l) as [st1|] eqn:H1; [|done].
  rewrite (processLayer_mono _ _ _ _ _ Hle H1). by apply IH.
Qed.

End ProcessLayer.

Lemma sortLayersByDependencies_mono fuel fuel' layers sortedLayers :
  fuel ≤ fuel' →
  sortLayersByDependencies fuel layers = Some sortedLayers →
  sortLayersByDependencies fuel' layers = Some sortedLayers.
Proof.
  unfold sortLayersByDependencies. intros Hle H.
  destruct (processLayers _ fuel _ layers) as [st|] eqn:Hst; [|done].
  by rewrite (processLayers_mono _ _ _ _ _ _ Hle Hst).
Qed.

Section SortFacts.
Variable layers : list SemanticLayer.t.
Hypothesis uniqueIds : NoDup (SemanticLayer.id <$> layers).

Abbreviation layerMap := (layerMapOf layers).
Notation "L ~> R" := (relativeToLayer layers L R) (at level 70).

Lemma relativeToLayer_lookup L name R :
  referent (SemanticLayer.position L) = Some name →
  layerMap !! name = Some R →
  L ~> R.
Proof. intros HL [Hin <-]%layerMapOf_Some. by split. Qed.

Lemma sortInv_init : sortInv layers {| sorted := []; processed := ∅ |}.
Proof.
  split; simpl.
  - intros x. rewrite elem_of_nil. set_solver.
  - by intros l ?%elem_of_nil.
  - constructor.
  - intros [|? s1] L s2 name Hs; discriminate Hs.
Qed.

(** Pushing a layer whose referent, if any, is processed keeps the invariant. *)
Lemma sortInv_push st l :
  sortInv layers st → l ∈ layers →
  SemanticLayer.id l ∉ processed st →
  (∀ name, referent (SemanticLayer.position l) = Some name →
           name ∈ SemanticLayer.id <$> layers → name ∈ processed st) →
  sortInv layers (push l st).
Proof.
  intros [Hp Hl Hnd Hrf] Hin Hfresh Href. split; simpl.
  - intros x. rewrite fmap_app, elem_of_app, elem_of_union, Hp. simpl.
    rewrite elem_of_singleton, list_elem_of_singleton. tauto.
  - intros l' [H | ->%list_elem_of_singleton]%elem_of_app; auto.
  - rewrite fmap_app. apply NoDup_app. repeat split; [done | | apply NoDup_singleton].
    simpl. intros x Hx ->%list_elem_of_singleton. by apply Hfresh, Hp.
  - intros s1 L s2 name Hs HL Hname.
    destruct s2 as [|l2 s2 _] using rev_ind.
    + apply app_inj_tail in Hs as [<- <-]. apply Hp. by apply Href.
    + rewrite app_comm_cons, app_assoc in Hs.
      apply app_inj_tail in Hs as [Hs _]. by apply (Hrf s1 L s2 name).
Qed.

(** A call of [processLayer] that returns keeps the invariant, has its
    layer processed, and has appended only layers that its layer reaches. *)
Lemma processLayer_sortInv fuel st l st' :
  acyclic layers → l ∈ layers → sortInv layers st →
  processLayer layerMap fuel st l = Some st' →
  sortInv layers st'
  ∧ SemanticLayer.id l ∈ processed st'
  ∧ ∃ ext, sorted st' = sorted st ++ ext ∧ ∀ x, x ∈ ext → rtc (relativeToLayer layers) l x.
Proof.
  intros Hacyc. revert st l st'.
  induction fuel as [|n IH]; intros st l st' Hl Hinv H; [done|].
  apply processLayer_Some_inv in H as (n' & [= <-] & H).
  destruct H as [[Hin ->] | [(Hnin & -> & Hrefs) | (Hnin & name & ref & st1 & Href & Hget & Hp & Hrec & ->)]].
  - split_and!; try done. exists []. split; [by rewrite app_nil_r|].
    by intros x ?%elem_of_nil.
  - split_and!.
    + apply sortInv_push; try done.
      intros name Hname Hex.
      destruct (layerMap !! name) as [ref|] eqn:Hget.
      * apply layerMapOf_Some in Hget as Hid. destruct Hid as [_ <-]. eauto.
      * apply list_elem_of_fmap in Hex as (R & -> & HR).
        by rewrite (layerMapOf_lookup _ _ uniqueIds HR) in Hget.
    + apply elem_of_union_l. by apply elem_of_singleton.
    + exists [l]. split; [done|]. by intros x ->%list_elem_of_singleton.
  - pose proof (relativeToLayer_lookup _ _ _ Href Hget) as Hstep.
    apply layerMapOf_Some in Hget as Hid. destruct Hid as [Href_in Hid].
    destruct (IH st ref st1 Href_in Hinv Hrec) as (Hinv1 & Hdone & ext & Hext & Hreach).
    assert (Hfresh : SemanticLayer.id l ∉ processed st1).
    { rewrite (inv_processed _ _ Hinv1), Hext, fmap_app, elem_of_app.
      intros [Hold | Hnew].
      - by apply Hnin, (inv_processed _ _ Hinv).
      - apply list_elem_of_fmap in Hnew as (x & Hidx & Hx).
        assert (x ∈ layers) as Hx_in.
        { apply (inv_layers _ _ Hinv1). rewrite Hext. apply elem_of_app. by right. }
        assert (x = l) as -> by (by apply (layer_id_inj layers)).
        apply (Hacyc l Hl). eapply tc_rtc_r; [by apply tc_once | by apply Hreach]. }
    split_and!.
    + apply sortInv_push; try done.
      intros name' Hname' _. rewrite Href in Hname'. injection Hname' as <-.
      by rewrite <- Hid.
    + apply elem_of_union_l. by apply elem_of_singleton.
    + exists (ext ++ [l]). split; [simpl; by rewrite Hext, app_assoc|].
      intros x [Hx | ->%list_elem_of_singleton]%elem_of_app; [|done].
      eapply rtc_l; [exact Hstep | by apply Hreach].
Qed.

(** A call of [processLayer] returns when the stack has room for one
    frame per layer: [path] is the chain of callers, all distinct. *)
Lemma processLayer_terminates fuel st l path :
  acyclic layers → l ∈ layers →
  NoDup path →
  (∀ p, p ∈ path → p ∈ layers ∧ tc (relativeToLayer layers) p l) →
  length layers ≤ fuel + length path →
  is_Some (processLayer layerMap fuel st l).
Proof.
  intros Hacyc. revert l path.
  induction fuel as [|n IH]; intros l path Hl Hnd Hpath Hlen.
  all: assert (Hfresh : l ∉ path) by (intros [_ Hc]%Hpath; by apply (Hacyc l)).
  all: assert (Hsize : length (l :: path) ≤ length layers).
  all: try (apply submseteq_length, NoDup_submseteq; [by constructor|];
            intros x [-> | Hx]%elem_of_cons; [done | by apply Hpath]).
  { simpl in *. lia. }
  rewrite processLayer_S. destruct (decide _) as [|Hnin]; [done|].
  destruct (referent (SemanticLayer.position l)) as [name|] eqn:Href; [|done].
  destruct (layerMap !! name) as [ref|] eqn:Hget; [|done].
  destruct (decide _) as [|Hp]; [done|].
  pose proof (relativeToLayer_lookup _ _ _ Href Hget) as Hstep.
  destruct (IH ref (l :: path)) as [st1 Hst1].
  - apply Hstep.
  - by constructor.
  - intros p [-> | Hp']%elem_of_cons.
    + split; [done | by apply tc_once].
    + destruct (Hpath p Hp') as [? ?]. split; [done|]. by eapply tc_r.
  - simpl. lia.
  - by rewrite Hst1.
Qed.

(** The loop over the declared layers. *)
Lemma processLayers_sortInv fuel ls st :
  acyclic layers → length layers ≤ fuel →
  (∀ l, l ∈ ls → l ∈ layers) → sortInv layers st →
  ∃ st', processLayers layerMap fuel st ls = Some st'
    ∧ sortInv layers st'
    ∧ (∀ x, x ∈ processed st → x ∈ processed st')
    ∧ (∀ l, l ∈ ls → SemanticLayer.id l ∈ processed st').
Proof.
  intros Hacyc Hfuel. revert st.
  induction ls as [|l rest IH]; intros st Hls Hinv.
  { exists st. split_and!; try done. by intros l ?%elem_of_nil. }
  assert (Hl : l ∈ layers) by (apply Hls, elem_of_cons; by left).
  destruct (processLayer_terminates fuel st l [] Hacyc Hl) as [st1 Hst1].
  { constructor. } { by intros p ?%elem_of_nil. } { simpl. lia. }
  destruct (processLayer_sortInv _ _ _ _ Hacyc Hl Hinv Hst1)
    as (Hinv1 & Hdone & ext & Hext & _).
  destruct (IH st1) as (st' & Hst' & Hinv' & Hmono & Hall); [|done|].
  { intros l' Hl'. apply Hls, elem_of_cons. by right. }
  exists st'. simpl. rewrite Hst1. split_and!; try done.
  - intros x Hx. apply Hmono, (inv_processed _ _ Hinv1).
    rewrite Hext, fmap_app, elem_of_app. left. by apply (inv_processed _ _ Hinv).
  - intros l' [-> | Hl']%elem_of_cons; [by apply Hmono | by apply Hall].
Qed.

(** The sort of an acyclic list of layers: it returns, with a permutation
    in which referents come first. *)
Lemma sortLayersByDependencies_sorted fuel :
  acyclic layers → length layers ≤ fuel →
  ∃ sortedLayers,
    sortLayersByDependencies fuel layers = Some sortedLayers
    ∧ sortedLayers ≡ₚ layers
    ∧ NoDup (SemanticLayer.id <$> sortedLayers)
    ∧ referentsFirst layers sortedLayers.
Proof.
  intros Hacyc Hfuel.
  destruct (processLayers_sortInv fuel layers _ Hacyc Hfuel (λ _ H, H) sortInv_init)
    as (st & Hst & Hinv & _ & Hall).
  exists (sorted st). unfold sortLayersByDependencies. rewrite Hst.
  split_and!; [done | | apply (inv_NoDup _ _ Hinv) | apply (inv_referentsFirst _ _ Hinv)].
  apply NoDup_Permutation.
  - eapply NoDup_fmap_1, (inv_NoDup _ _ Hinv).
  - eapply NoDup_fmap_1, uniqueIds.
  - intros l. split; [apply (inv_layers _ _ Hinv)|]. intros Hl.
    pose proof (Hall _ Hl) as Hp.
    apply (inv_processed _ _ Hinv), list_elem_of_fmap in Hp as (l' & Hid & Hl').
    assert (l = l') as <-; [|done].
    apply (layer_id_inj layers); try done. by apply (inv_layers _ _ Hinv).
Qed.

End SortFacts.

(** *** Checking that a list of layers is acyclic *)

(** A layer on a cycle refers to a layer on a cycle. *)
Lemma cycle_step layers L :
  tc (relativeToLayer layers) L L →
  ∃ M, relativeToLayer layers L M ∧ tc (relativeToLayer layers) M M.
Proof.
  intros H. inversion H as [? ? Hstep | ? M ? Hstep Hrest]; subst.
  - exists L. split; [done | by apply tc_once].
  - exists M. split; [done|]. eapply tc_r; eauto.
Qed.

Lemma chainEnds_cycle layers fuel L :
  NoDup (SemanticLayer.id <$> layers) →
  tc (relativeToLayer layers) L L →
  chainEnds (layerMapOf layers) fuel L = false.
Proof.
  intros Hnd. revert L. induction fuel as [|n IH]; intros L HL; [done|].
  destruct (cycle_step _ _ HL) as (M & [HM Href] & Hcyc).
  simpl. rewrite Href, (layerMapOf_lookup _ _ Hnd HM). by apply IH.
Qed.

Lemma acyclicb_acyclic layers :
  NoDup (SemanticLayer.id <$> layers) → acyclicb layers = true → acyclic layers.
Proof.
  intros Hnd Hb L HL Hcyc. unfold acyclicb in Hb.
  rewrite forallb_forall in Hb. apply list_elem_of_In, Hb in HL.
  by rewrite (chainEnds_cycle _ _ _ Hnd Hcyc) in HL.
Qed.

(** *** Declaration order *)

(** Without referents, the loop appends the layers as they come. *)
Lemma processLayers_declaration_order layerMap fuel ls st :
  (∀ l, l ∈ ls → referent (SemanticLayer.position l) = None) →
  NoDup (SemanticLayer.id <$> ls) →
  (∀ l, l ∈ ls → SemanticLayer.id l ∉ processed st) →
  ∃ st', processLayers layerMap (S fuel) st ls = Some st'
         ∧ sorted st' = sorted st ++ ls.
Proof.
  revert st. induction ls as [|l rest IH]; intros st Href Hnd Hfresh.
  { exists st. by rewrite app_nil_r. }
  rewrite fmap_cons in Hnd. apply NoDup_cons in Hnd as [Hl Hnd].
  destruct (IH (push l st)) as (st' & Hst' & Hsorted); [| done | |].
  { intros l' Hl'. apply Href, elem_of_cons. by right. }
  { intros l' Hl'. simpl. rewrite elem_of_union, elem_of_singleton.
    intros [Heq | Hin].
    - apply Hl. rewrite <- Heq. by apply list_elem_of_fmap_2.
    - revert Hin. apply Hfresh, elem_of_cons. by right. }
  exists st'. split.
  - cbn [processLayers]. rewrite processLayer_push; [done | |].
    + apply Hfresh, elem_of_cons. by left.
    + intros name ref Hname. rewrite Href in Hname; [done|].
      apply elem_of_cons. by left.
  - rewrite Hsorted. simpl. by rewrite <- app_assoc.
Qed.

Lemma isRelative_false_referent position :
  isRelative position = false → referent position = None.
Proof. by destruct position. Qed.

(** C1: on an acyclic list of layers with unique ids, whose relative
    positions all name a layer, the sort returns (with a stack of one
    frame per layer) a permutation of the layers, each of them once, in
    which the layer that a relative position names is strictly before the
    layer that has this position; and when no position is relative, the
    result is the declaration order. *)
Theorem sortLayersByDependencies_dependency_order layers fuel :
  NoDup (SemanticLayer.id <$> layers) →
  acyclic layers →
  referentsExist layers →
  length layers ≤ fuel →
  ∃ sortedLayers,
    sortLayersByDependencies fuel layers = Some sortedLayers
    ∧ sortedLayers ≡ₚ layers
    ∧ NoDup sortedLayers
    ∧ (∀ L r, L ∈ layers → referent (SemanticLayer.position L) = Some r →
         ∃ R, R ∈ layers ∧ SemanticLayer.id R = r ∧ precedes R L sortedLayers)
    ∧ ((∀ L, L ∈ layers → isRelative (SemanticLayer.position L) = false) →
         sortedLayers = layers).
Proof.
  intros Hnd Hacyc Hex Hfuel.
  destruct (sortLayersByDependencies_sorted layers Hnd fuel Hacyc Hfuel)
    as (sortedLayers & Hsort & Hperm & Hnd' & Hfirst).
  exists sortedLayers. split_and!; [done | done | by eapply NoDup_fmap_1 | |].
  - intros L r HL Href.
    pose proof (Hex L r HL Href) as Hr.
    rewrite <- Hperm in HL. apply list_elem_of_split in HL as (s1 & s2 & ->).
    pose proof (Hfirst s1 L s2 r eq_refl Href Hr) as Hin.
    apply list_elem_of_fmap in Hin as (R & -> & HR).
    exists R. split_and!; [| done |].
    + rewrite <- Hperm. apply elem_of_app. by left.
    + apply list_elem_of_split in HR as (a & b & ->).
      exists a, b, s2. by rewrite <- app_assoc.
  - intros Hnone. destruct layers as [|l0 rest] eqn:Hlayers.
    { by apply Permutation_nil_r in Hperm. }
    rewrite <- Hlayers in *. destruct fuel as [|n]; [rewrite Hlayers in Hfuel; simpl in Hfuel; lia|].
    destruct (processLayers_declaration_order (layerMapOf layers) n layers
                {| sorted := []; processed := ∅ |}) as (st' & Hst' & Hsorted);
      [| done | |].
    + intros l Hl. by apply isRelative_false_referent, Hnone.
    + intros l _. apply not_elem_of_empty.
    + unfold sortLayersByDependencies in Hsort. rewrite Hst' in Hsort.
      simpl in Hsort, Hsorted. congruence.
Qed.

Lemma sortLayersByDependencies_dependency_order_witness :
  ∃ sortedLayers,
    sortLayersByDependencies 3 [left_tri; center_circle; right_tri] = Some sortedLayers
    ∧ precedes center_circle left_tri sortedLayers.
Proof.
  destruct (sortLayersByDependencies_dependency_order
              [left_tri; center_circle; right_tri] 3)
    as (sortedLayers & Hsort & _ & _ & Hfirst & _).
  - by_evaluation.
  - apply acyclicb_acyclic; [by_evaluation | vm_compute; reflexivity].
  - intros L r HL Href.
    repeat (apply elem_of_cons in HL as [-> | HL]);
      [.. | by apply elem_of_nil in HL];
      try discriminate Href; injection Href as <-; by_evaluation.
  - simpl. lia.
  - exists sortedLayers. split; [done|].
    destruct (Hfirst left_tri "center_circle"%string) as (R & HR & Hid & Hprec).
    + apply elem_of_cons. by left.
    + reflexivity.
    + repeat (apply elem_of_cons in HR as [-> | HR]); try discriminate Hid;
        [done | by apply elem_of_nil in HR].
Defined.

(** *** Cycles *)

Section CycleFacts.
Variable layers : list SemanticLayer.t.
Hypothesis uniqueIds : NoDup (SemanticLayer.id <$> layers).

Abbreviation onCycle L := (tc (relativeToLayer layers) L L).

(** On a layer of a cycle the recursion goes on as deep as the stack
    allows. *)
Lemma processLayer_cycle fuel st L :
  cycleFree layers st → L ∈ layers → onCycle L →
  processLayer (layerMapOf layers) fuel st L = None.
Proof.
  intros Hfree. revert L. induction fuel as [|n IH]; intros L HL Hcyc; [done|].
  destruct (cycle_step _ _ Hcyc) as (M & [HM Href] & HcycM).
  rewrite (processLayer_rec _ _ _ _ (SemanticLayer.id M) M).
  - by rewrite IH.
  - by apply Hfree.
  - done.
  - by apply layerMapOf_lookup.
  - by apply Hfree.
Qed.

Lemma processLayer_cycleFree fuel st L st' :
  cycleFree layers st → L ∈ layers →
  processLayer (layerMapOf layers) fuel st L = Some st' →
  cycleFree layers st'.
Proof.
  revert st L st'. induction fuel as [|n IH]; intros st L st' Hfree HL H; [done|].
  assert (HnotL : ∀ st1 : sortState, cycleFree layers st1 → cycleFree layers (push L st1)).
  { intros st1 Hfree1 M HM HcycM. simpl. rewrite elem_of_union, elem_of_singleton.
    intros [Hid | Hin]; [|by apply (Hfree1 M)].
    assert (M = L) as -> by (by apply (layer_id_inj layers)).
    by rewrite (processLayer_cycle _ _ _ Hfree HL HcycM) in H. }
  apply processLayer_Some_inv in H as (n' & [= <-] & H).
  destruct H as [[Hin ->] | [(Hnin & -> & Hrefs) | (Hnin & name & ref & st1 & Href & Hget & Hp & Hrec & ->)]].
  - done.
  - by apply HnotL.
  - apply HnotL. apply (IH st ref st1); [done | | done].
    by apply layerMapOf_Some in Hget as [? _].
Qed.

Lemma processLayers_cycle fuel st ls :
  cycleFree layers st → (∀ l, l ∈ ls → l ∈ layers) →
  (∃ L, L ∈ ls ∧ onCycle L) →
  processLayers (layerMapOf layers) fuel st ls = None.
Proof.
  revert st. induction ls as [|l rest IH]; intros st Hfree Hls (L & HL & Hcyc).
  { by apply elem_of_nil in HL. }
  assert (Hl : l ∈ layers) by (apply Hls, elem_of_cons; by left).
  simpl. destruct (processLayer _ fuel st l) as [st1|] eqn:H1; [|done].
  apply IH.
  - by apply (processLayer_cycleFree fuel st l).
  - intros l' Hl'. apply Hls, elem_of_cons. by right.
  - apply elem_of_cons in HL as [-> | HL]; [|by eauto].
    by rewrite (processLayer_cycle _ _ _ Hfree Hl Hcyc) in H1.
Qed.

(** The sort of a list of layers with a cycle does not return. *)
Lemma sortLayersByDependencies_cycle fuel :
  cyclic layers → sortLayersByDependencies fuel layers = None.
Proof.
  intros Hcyc. unfold sortLayersByDependencies.
  rewrite processLayers_cycle; [done | | done | done].
  intros L _ _. apply not_elem_of_empty.
Qed.

End CycleFacts.

Lemma twoCycle_cyclic : cyclic (SemanticSvgSpec.layers twoCycle).
Proof.
  exists layerA. split; [apply elem_of_cons; by left|].
  apply (tc_l _ layerA layerB layerA); [|apply tc_once].
  - split; [|reflexivity]. apply elem_of_cons. right. apply elem_of_cons. by left.
  - split; [|reflexivity]. apply elem_of_cons. by left.
Qed.

Lemma twoCycle_uniqueIds :
  NoDup (SemanticLayer.id <$> SemanticSvgSpec.layers twoCycle).
Proof. by_evaluation. Qed.

(** C4, as the code has it: on a specification (of unique ids) whose
    references contain a cycle, the run does not return, whatever the room
    on the stack: nothing detects the cycle, no error of the run's own is
    thrown, no markup is returned. *)
Theorem generateSemanticSvg_cycle_exhausts_stack spec fuel calculatedShapes :
  NoDup (SemanticLayer.id <$> SemanticSvgSpec.layers spec) →
  cyclic (SemanticSvgSpec.layers spec) →
  generateSemanticSvg fuel spec calculatedShapes = None.
Proof.
  intros Hnd Hcyc. unfold generateSemanticSvg.
  by rewrite sortLayersByDependencies_cycle.
Qed.

Lemma generateSemanticSvg_cycle_exhausts_stack_witness :
  generateSemanticSvg 1000 twoCycle ∅ = None.
Proof.
  apply generateSemanticSvg_cycle_exhausts_stack.
  - by_evaluation.
  - exact twoCycle_cyclic.
Defined.

(** C4 as stated fails: on the cycle of two, no depth of stack lets the
    run end with an error that names the identifiers. *)
Lemma twoCycle_no_error :
  ¬ ∃ fuel calculatedShapes calculatedShapes' e,
      generateSemanticSvg fuel twoCycle calculatedShapes = Some (calculatedShapes', inl e).
Proof.
  intros (fuel & cs & cs' & e & H). unfold generateSemanticSvg in H.
  by rewrite (sortLayersByDependencies_cycle _ twoCycle_uniqueIds fuel twoCycle_cyclic) in H.
Qed.

(** ** The run: unknown references *)

Section ResolveFacts.
Local Open Scope R_scope.

Lemma calculatePosition_not_found cs layer w h name :
  referent (SemanticLayer.position layer) = Some name →
  cs !! name = None →
  calculatePosition cs layer w h = inl (ReferenceNotFound name).
Proof.
  intros (Hne & alignment & offset & Hpos)%referent_inv Hcs.
  unfold calculatePosition. by rewrite Hpos, (truthy_Some _ Hne), Hcs.
Qed.

Lemma calculatePosition_returns cs layer w h :
  (∀ name, referent (SemanticLayer.position layer) = Some name → is_Some (cs !! name)) →
  ∃ center, calculatePosition cs layer w h = inr center.
Proof.
  intros Href. unfold calculatePosition.
  destruct (SemanticLayer.position layer) as [x y | | relativeTo alignment offset];
    [by eexists | by eexists |].
  simpl in Href. destruct (truthy relativeTo) as [name|]; [|by eexists].
  destruct (Href name eq_refl) as [ref ->]. simpl.
  repeat (destruct (decide _); [by eexists|]). by eexists.
Qed.

(** The loop over the sorted layers, when one of those that remain names
    an identifier that no layer has: [pre] is the part of the list done
    already, whose placements the map holds. *)
Lemma resolveLayers_unknown_reference layers canvasSize post pre svg cs :
  (∀ x, is_Some (cs !! x) ↔ x ∈ SemanticLayer.id <$> pre) →
  (∀ l, l ∈ pre ++ post → l ∈ layers) →
  referentsFirst layers (pre ++ post) →
  (∃ L m, L ∈ post ∧ referent (SemanticLayer.position L) = Some m
          ∧ m ∉ SemanticLayer.id <$> layers) →
  ∃ cs' m',
    resolveLayers canvasSize post svg cs = (cs', inl (ReferenceNotFound m'))
    ∧ (m' ∉ SemanticLayer.id <$> layers)
    ∧ ∃ L', L' ∈ post ∧ referent (SemanticLayer.position L') = Some m'.
Proof.
  revert pre svg cs.
  induction post as [|l rest IH]; intros pre svg cs Hcs Hpre Hfirst (L & m & HL & Hm & Hmiss).
  { by apply elem_of_nil in HL. }
  assert (Hcases :
    (∃ name, referent (SemanticLayer.position l) = Some name
             ∧ name ∉ SemanticLayer.id <$> layers)
    ∨ (∀ name, referent (SemanticLayer.position l) = Some name →
               name ∈ SemanticLayer.id <$> layers)).
  { destruct (referent (SemanticLayer.position l)) as [name|]; [|right; by intros ? [=]].
    destruct (decide (name ∈ SemanticLayer.id <$> layers)); [right | left; by eauto].
    by intros ? [= <-]. }
  destruct Hcases as [(name & Href & Hname) | Hok].
  - exists cs, name. split_and!; [| done |].
    + simpl. rewrite (calculatePosition_not_found _ _ _ _ name); [done | done |].
      apply eq_None_not_Some. intros (l' & -> & Hl')%Hcs%list_elem_of_fmap.
      apply Hname, list_elem_of_fmap_2, Hpre, elem_of_app. by left.
    + exists l. split; [apply elem_of_cons; by left | done].
  - destruct (calculatePosition_returns cs l (CanvasSize.width canvasSize)
                (CanvasSize.height canvasSize)) as [center Hcenter].
    { intros name Hname. apply Hcs, (Hfirst pre l rest name); auto. }
    simpl. rewrite Hcenter.
    set (placed := CalculatedShape.mk (SemanticLayer.id l) (Point.x center) (Point.y center)
                     (calculateBounds (SemanticLayer.shape l) (Point.x center) (Point.y center))).
    destruct (IH (pre ++ [l])
                (svg ++ [layerToSvg l (Point.x center) (Point.y center)])
                (<[SemanticLayer.id l := placed]> cs))
      as (cs' & m' & Hrun & Hm' & L' & HL' & HrefL').
    + intros x. rewrite lookup_insert_is_Some', fmap_app, elem_of_app, Hcs. simpl.
      rewrite list_elem_of_singleton. split; intros [?|?]; auto.
    + by rewrite <- app_assoc.
    + by rewrite <- app_assoc.
    + exists L, m. split_and!; try done.
      apply elem_of_cons in HL as [-> | HL]; [|done]. by apply Hok in Hm.
    + exists cs', m'. split_and!; [exact Hrun | done |].
      exists L'. split; [apply elem_of_cons; by right | done].
Qed.

End ResolveFacts.

(** C5: on a specification (unique ids, no cycle) in which the relative
    position of a layer names an identifier [m] that no layer has, the run
    ends with the error [Reference shape "m'" not found], where [m'] is
    such a missing identifier, named by a layer ([m] itself when it is the
    only one); the result is the error alone, without any markup. *)
Theorem generateSemanticSvg_unknown_reference spec fuel calculatedShapes L m :
  let layers := SemanticSvgSpec.layers spec in
  NoDup (SemanticLayer.id <$> layers) →
  acyclic layers →
  length layers ≤ fuel →
  L ∈ layers →
  referent (SemanticLayer.position L) = Some m →
  m ∉ SemanticLayer.id <$> layers →
  ∃ calculatedShapes' m',
    generateSemanticSvg fuel spec calculatedShapes
      = Some (calculatedShapes', inl (ReferenceNotFound m'))
    ∧ (m' ∉ SemanticLayer.id <$> layers)
    ∧ (∃ L', L' ∈ layers ∧ referent (SemanticLayer.position L') = Some m')
    ∧ ((∀ L' r, L' ∈ layers → referent (SemanticLayer.position L') = Some r →
                r ∉ SemanticLayer.id <$> layers → r = m) →
       m' = m).
Proof.
  intros layers Hnd Hacyc Hfuel HL Hm Hmiss.
  destruct (sortLayersByDependencies_sorted layers Hnd fuel Hacyc Hfuel)
    as (sortedLayers & Hsort & Hperm & _ & Hfirst).
  destruct (resolveLayers_unknown_reference layers (SemanticSvgSpec.canvasSize spec)
              sortedLayers [] (svgHeader spec) ∅)
    as (cs' & m' & Hrun & Hm' & L' & HL' & HrefL').
  - intros x. rewrite lookup_empty, fmap_nil, elem_of_nil.
    split; [by intros [? ?] | done].
  - intros l Hl. simpl in Hl. by rewrite <- Hperm.
  - done.
  - exists L, m. split_and!; try done. by rewrite Hperm.
  - exists cs', m'. unfold generateSemanticSvg. fold layers. rewrite Hsort, Hrun.
    rewrite Hperm in HL'. split_and!; eauto.
Qed.

Lemma generateSemanticSvg_unknown_reference_witness :
  ∃ calculatedShapes',
    generateSemanticSvg 3 (ballValve [left_tri; center_circle; stray_tri]) ∅
      = Some (calculatedShapes', inl (ReferenceNotFound "valve_body")).
Proof.
  destruct (generateSemanticSvg_unknown_reference
              (ballValve [left_tri; center_circle; stray_tri]) 3 ∅
              stray_tri "valve_body")
    as (cs' & m' & Hrun & _ & _ & Honly).
  - by_evaluation.
  - apply acyclicb_acyclic; [by_evaluation | vm_compute; reflexivity].
  - simpl. lia.
  - simpl. do 2 (apply elem_of_cons; right). apply elem_of_cons. by left.
  - reflexivity.
  - by_evaluation.
  - exists cs'. rewrite Hrun, Honly; [done|].
    intros L' r HL' Hr Hmiss. simpl in HL'.
    repeat (apply elem_of_cons in HL' as [-> | HL']);
      [.. | by apply elem_of_nil in HL']; try discriminate Hr;
      injection Hr as <-; [|done].
    exfalso. apply Hmiss. by_evaluation.
Defined.

(** ** The run: the ball valve *)

Section BallValve.
Local Open Scope R_scope.

(** One turn of the loop that does not throw. *)
Lemma resolveLayers_step canvasSize layer rest svg cs center :
  calculatePosition cs layer (CanvasSize.width canvasSize) (CanvasSize.height canvasSize)
    = inr center →
  resolveLayers canvasSize (layer :: rest) svg cs
    = resolveLayers canvasSize rest
        (svg ++ [layerToSvg layer (Point.x center) (Point.y center)])
        (<[SemanticLayer.id layer := placement layer center]> cs).
Proof. intros H. simpl. by rewrite H. Qed.

(** The two triangles, resolved against the circle placed by the run. *)
Lemma ballValve_triangles cs :
  let placed := placement center_circle (Point.mk (400 / 2) (400 / 2)) in
  cs !! "center_circle"%string = Some placed →
  calculatePosition cs left_tri 400 400
    = inr (Point.mk (Bounds.left (CalculatedShape.bounds placed) + 0) (400 / 2))
  ∧ calculatePosition cs right_tri 400 400
    = inr (Point.mk (Bounds.right (CalculatedShape.bounds placed) + 0) (400 / 2)).
Proof.
  intros placed Hcs. split.
  - by rewrite (calculatePosition_found cs left_tri 400 400 _ _ _ placed eq_refl).
  - by rewrite (calculatePosition_found cs right_tri 400 400 _ _ _ placed eq_refl).
Qed.

(** The run on the valve, once the sort has put the circle first. *)
Lemma ballValve_sorted layers sortedLayers fuel cs0 :
  2 ≤ fuel →
  sortLayersByDependencies 2 layers = Some sortedLayers →
  sortedLayers = [center_circle; left_tri; right_tri]
  ∨ sortedLayers = [center_circle; right_tri; left_tri] →
  ∃ cs markup,
    generateSemanticSvg fuel (ballValve layers) cs0 = Some (cs, inr markup)
    ∧ placedAt cs "center_circle" 200 200
    ∧ placedAt cs "left" 170 200
    ∧ placedAt cs "right" 230 200.
Proof.
  intros Hfuel Hsort Hcases. unfold generateSemanticSvg.
  cbn [SemanticSvgSpec.layers SemanticSvgSpec.canvasSize ballValve].
  rewrite (sortLayersByDependencies_mono 2 fuel _ _ Hfuel Hsort).
  set (canvasSize := CanvasSize.mk 400 400).
  set (placed := placement center_circle (Point.mk (400 / 2) (400 / 2))).
  assert (Hcircle : ∀ cs, calculatePosition cs center_circle 400 400
                          = inr (Point.mk (400 / 2) (400 / 2))) by done.
  destruct Hcases as [-> | ->].
  - erewrite resolveLayers_step; [|exact (Hcircle _)].
    erewrite resolveLayers_step;
      [|eapply proj1, ballValve_triangles; by simplify_map_eq].
    erewrite resolveLayers_step;
      [|eapply proj2, ballValve_triangles; by simplify_map_eq].
    eexists _, _. split; [reflexivity|].
    split_and!; eexists; (split; [by simplify_map_eq|]); simpl; lra.
  - erewrite resolveLayers_step; [|exact (Hcircle _)].
    erewrite resolveLayers_step;
      [|eapply proj2, ballValve_triangles; by simplify_map_eq].
    erewrite resolveLayers_step;
      [|eapply proj1, ballValve_triangles; by simplify_map_eq].
    eexists _, _. split; [reflexivity|].
    split_and!; eexists; (split; [by simplify_map_eq|]); simpl; lra.
Qed.

(** C3: the ball valve on the 400×400 canvas, its three layers declared
    in any order: the run places the circle at (200, 200), the left
    triangle at (170, 200) and the right triangle at (230, 200). *)
Theorem ballValve_centers layers fuel cs0 :
  layers ≡ₚ [center_circle; left_tri; right_tri] →
  2 ≤ fuel →
  ∃ cs markup,
    generateSemanticSvg fuel (ballValve layers) cs0 = Some (cs, inr markup)
    ∧ placedAt cs "center_circle" 200 200
    ∧ placedAt cs "left" 170 200
    ∧ placedAt cs "right" 230 200.
Proof.
  intros Hperm Hfuel. symmetry in Hperm.
  apply permutations_Permutation in Hperm. simpl in Hperm.
  repeat (apply elem_of_cons in Hperm as [-> | Hperm]);
    [.. | by apply elem_of_nil in Hperm].
  all: eapply ballValve_sorted; [done | vm_compute; reflexivity |].
  all: first [by left | by right].
Qed.

Lemma ballValve_centers_witness :
  ∃ cs markup,
    generateSemanticSvg 2 (ballValve [left_tri; center_circle; right_tri]) ∅
      = Some (cs, inr markup)
    ∧ placedAt cs "center_circle" 200 200
    ∧ placedAt cs "left" 170 200
    ∧ placedAt cs "right" 230 200.
Proof.
  apply ballValve_centers; [apply perm_swap | lia].
Defined.

End BallValve.

(** ** The run: one call after the other *)

(** C8: a call does not depend on the map that the calls before it have
    left; called again on the same specification, from the map that the
    first call leaves, the run gives the same result (the markup, the
    error, or no return), and leaves the same map. *)
Theorem generateSemanticSvg_rerun fuel spec calculatedShapes :
  (∀ calculatedShapes',
     generateSemanticSvg fuel spec calculatedShapes
       = generateSemanticSvg fuel spec calculatedShapes')
  ∧ match generateSemanticSvg fuel spec calculatedShapes with
    | Some (calculatedShapes1, out1) =>
        generateSemanticSvg fuel spec calculatedShapes1 = Some (calculatedShapes1, out1)
    | None =>
        ∀ calculatedShapes1, generateSemanticSvg fuel spec calculatedShapes1 = None
    end.
Proof.
  split; [reflexivity|].
  destruct (generateSemanticSvg fuel spec calculatedShapes) as [[cs1 out1]|] eqn:H.
  - exact H.
  - intros cs1. exact H.
Qed.

(** * Further properties of the generator *)

(** ** What is drawn, against the bounds that are recorded *)

Section DrawnGeometry.
Local Open Scope R_scope.

(** [parts.join(sep)] of two lists put end to end. *)
Lemma join_app sep (xs ys : list text) :
  xs ≠ [] → ys ≠ [] →
  join sep (xs ++ ys) = join sep xs ++ Str sep :: join sep ys.
Proof.
  intros Hxs Hys. induction xs as [|x xs IH]; [done|].
  destruct xs as [|x' xs].
  - simpl. by destruct ys.
  - change (join sep ((x :: x' :: xs) ++ ys))
      with (x ++ Str sep :: join sep ((x' :: xs) ++ ys)).
    rewrite IH by done.
    change (join sep (x :: x' :: xs)) with (x ++ Str sep :: join sep (x' :: xs)).
    by rewrite <- app_assoc.
Qed.

(** X1: the three vertices of an equilateral triangle of side [s >= 0]
    are inside of the box that [calculateBounds] gives for it, whatever its
    orientation. *)
Theorem equilateral_vertices_within_bounds (o : Orientation) (s cx cy : R) :
  0 <= s →
  ∃ a b c,
    calculateTriangle (triangle equilateral o s) cx cy = polygonPoints [a; b; c]
    ∧ Forall (inBounds (calculateBounds (triangle equilateral o s) cx cy)) [a; b; c].
Proof.
  intros Hs. pose proof sqrt3_bounds as Hsqrt.
  assert (0 <= s * sqrt 3 <= 2 * s) by nra.
  destruct o; eexists (_, _), (_, _), (_, _); (split; [reflexivity|]);
    repeat (apply Forall_cons; split; [unfold inBounds; simpl; lra|]);
    by apply Forall_nil.
Qed.

Lemma equilateral_vertices_within_bounds_witness :
  ∃ a b c,
    calculateTriangle (triangle equilateral pointing_up 100) 200 200
      = polygonPoints [a; b; c]
    ∧ Forall (inBounds (calculateBounds (triangle equilateral pointing_up 100) 200 200))
        [a; b; c].
Proof. apply equilateral_vertices_within_bounds. lra. Defined.



(** X4: the polygon drawn for a diamond of size [s] has its four vertices
    on the four sides of the box that [calculateBounds] gives for it: on
    the top, the right, the bottom and the left side, in this order; with
    [s >= 0] they are inside of the box. *)
Theorem diamond_vertices_touch_bounds (layer : SemanticLayer.t) (s cx cy : R) :
  SemanticLayer.shape layer = diamond s →
  let b := calculateBounds (diamond s) cx cy in
  ∃ pre vt vr vb vl,
    layerToSvg layer cx cy
      = pre ++ [Str " points="; Str quote] ++ polygonPoints [vt; vr; vb; vl]
            ++ [Str quote; Str " />"]
    ∧ fst vt = cx ∧ snd vt = Bounds.top b
    ∧ fst vr = Bounds.right b ∧ snd vr = cy
    ∧ fst vb = cx ∧ snd vb = Bounds.bottom b
    ∧ fst vl = Bounds.left b ∧ snd vl = cy
    ∧ (0 <= s → Forall (inBounds b) [vt; vr; vb; vl]).
Proof.
  intros Hshape b. unfold layerToSvg. rewrite Hshape.
  eexists _, (_, _), (_, _), (_, _), (_, _). split.
  - rewrite !app_assoc. by do 2 f_equal.
  - simpl. split_and!; try reflexivity.
    intros Hs.
    repeat (apply Forall_cons; split; [unfold inBounds; simpl; lra|]).
    by apply Forall_nil.
Qed.

Lemma diamond_vertices_touch_bounds_witness :
  ∃ pre vt vr vb vl,
    layerToSvg (shaped "d" (diamond 40) (absolute 10 10)) 10 10
      = pre ++ [Str " points="; Str quote] ++ polygonPoints [vt; vr; vb; vl]
            ++ [Str quote; Str " />"]
    ∧ snd vt = Bounds.top (calculateBounds (diamond 40) 10 10).
Proof.
  destruct (diamond_vertices_touch_bounds
              (shaped "d" (diamond 40) (absolute 10 10)) 40 10 10 eq_refl)
    as (pre & vt & vr & vb & vl & Hsvg & _ & Htop & _).
  by exists pre, vt, vr, vb, vl.
Defined.

(** X5: at angle 0 the segment drawn for a line of length [len] is
    horizontal, from [(cx − len/2, cy)] to [(cx + len/2, cy)]: 0 is
    "horizontal right", as the schema says of [angle]. *)
Theorem line_at_angle_zero_is_horizontal (layer : SemanticLayer.t) (len cx cy : R) :
  SemanticLayer.shape layer = line len 0 →
  ∃ pre,
    layerToSvg layer cx cy
      = pre ++ join " " [attr "x1" (Num (cx - len / 2)); attr "y1" (Num cy);
                          attr "x2" (Num (cx + len / 2)); attr "y2" (Num cy)]
            ++ [Str " />"].
Proof.
  intros Hshape. unfold layerToSvg. rewrite Hshape.
  cbv zeta. rewrite join_app by done.
  replace (0 * PI / 180) with 0 by lra. rewrite cos_0, sin_0.
  rewrite Rmult_1_l, Rmult_0_l, Rminus_0_r, Rplus_0_r.
  eexists. rewrite !app_assoc. f_equal. rewrite cons_middle, app_assoc. reflexivity.
Qed.

Lemma line_at_angle_zero_is_horizontal_witness :
  ∃ pre,
    layerToSvg (shaped "l" (line 80 0) (absolute 10 10)) 10 10
      = pre ++ join " " [attr "x1" (Num (10 - 80 / 2)); attr "y1" (Num 10);
                          attr "x2" (Num (10 + 80 / 2)); attr "y2" (Num 10)]
            ++ [Str " />"].
Proof.
  apply (line_at_angle_zero_is_horizontal (shaped "l" (line 80 0) (absolute 10 10)) 80 10 10).
  reflexivity.
Defined.

End DrawnGeometry.

(** ** Relative positions against a placement of the run *)

Section AgainstPlacement.
Local Open Scope R_scope.

(** The box of a shape moves the way its centre moves. *)
Lemma calculateBounds_monotone (shape : ShapeDefinition) (cx cy cx' cy' : R) :
  let b := calculateBounds shape cx cy in
  let b' := calculateBounds shape cx' cy' in
  (cx <= cx' → Bounds.left b <= Bounds.left b' ∧ Bounds.right b <= Bounds.right b')
  ∧ (cy <= cy' → Bounds.top b <= Bounds.top b' ∧ Bounds.bottom b <= Bounds.bottom b')
  ∧ (cx = cx' → Bounds.left b = Bounds.left b' ∧ Bounds.right b = Bounds.right b')
  ∧ (cy = cy' → Bounds.top b = Bounds.top b' ∧ Bounds.bottom b = Bounds.bottom b').
Proof.
  destruct shape as [tt o s | wd ht r | r | rx ry | len a | s];
    try destruct o; simpl; split_and!; intros; split; subst; lra.
Qed.

(** X6: against a referent that is an ellipse or a line, the radii, the
    length and the angle play no part: [calculateBounds] has no case for
    these kinds, the box of the referent is the square of side 100 about
    its centre, and the alignments that use an edge give a point at 50
    from this centre, moved by the offset. *)
Theorem ellipse_line_referent_fixed_box
    cs layer refLayer c w h r alignment offset :
  SemanticLayer.position layer = relative (Some r) alignment offset →
  r ≠ EmptyString →
  cs !! r = Some (placement refLayer c) →
  (∃ rx ry, SemanticLayer.shape refLayer = ellipse rx ry)
  ∨ (∃ len a, SemanticLayer.shape refLayer = line len a) →
  let off := default 0 offset in
  let center := calculatePosition cs layer w h in
  (alignment = Some "tip_touches_left"%string →
     center = inr (Point.mk (Point.x c - 50 + off) (Point.y c)))
  ∧ (alignment = Some "tip_touches_right"%string →
     center = inr (Point.mk (Point.x c + 50 + off) (Point.y c)))
  ∧ (alignment = Some "tip_touches_top"%string →
     center = inr (Point.mk (Point.x c) (Point.y c - 50 + off)))
  ∧ (alignment = Some "tip_touches_bottom"%string →
     center = inr (Point.mk (Point.x c) (Point.y c + 50 + off)))
  ∧ (alignment = Some "adjacent_left"%string →
     center = inr (Point.mk (Point.x c - 50 - off) (Point.y c)))
  ∧ (alignment = Some "adjacent_right"%string →
     center = inr (Point.mk (Point.x c + 50 + off) (Point.y c))).
Proof.
  intros Hpos Hr Hcs Hshape off center. subst center.
  rewrite (calculatePosition_found _ _ _ _ _ _ _ _ Hpos Hr Hcs).
  unfold placement. cbn [CalculatedShape.bounds CalculatedShape.centerX CalculatedShape.centerY].
  destruct Hshape as [(rx & ry & ->) | (len & a & ->)];
    split_and!; by intros ->.
Qed.

Lemma ellipse_line_referent_fixed_box_witness :
  calculatePosition
      {[ "body"%string := placement (shaped "body" (ellipse 300 5) centered)
                            (Point.mk 200 200) ]}
      (shaped "tip" (circle 1)
         (relative (Some "body"%string) (Some "tip_touches_right"%string) None))
      400 400
    = inr (Point.mk (200 + 50 + 0) 200).
Proof.
  refine (proj1 (proj2
    (ellipse_line_referent_fixed_box _
       (shaped "tip" (circle 1)
          (relative (Some "body"%string) (Some "tip_touches_right"%string) None))
       (shaped "body" (ellipse 300 5) centered) (Point.mk 200 200) 400 400
       "body" (Some "tip_touches_right"%string) None eq_refl _ _ _)) eq_refl).
  - discriminate.
  - apply lookup_singleton_eq.
  - left. by exists 300, 5.
Defined.



(** X8: with an offset that is not negative, the four [tip_touches_*]
    alignments all move from their edge towards greater coordinates:
    [tip_touches_left] gives a point at or to the right of the left edge
    (towards the referent, where [adjacent_left] moves away from it),
    [tip_touches_right] a point at or to the right of the right edge,
    [tip_touches_top] a point at or below the top edge and
    [tip_touches_bottom] a point at or below the bottom edge. *)
Theorem tip_touches_alignments_shift_together cs l1 l2 l3 l4 ref w h r offset :
  SemanticLayer.position l1 = relative (Some r) (Some "tip_touches_left"%string) offset →
  SemanticLayer.position l2 = relative (Some r) (Some "tip_touches_right"%string) offset →
  SemanticLayer.position l3 = relative (Some r) (Some "tip_touches_top"%string) offset →
  SemanticLayer.position l4 = relative (Some r) (Some "tip_touches_bottom"%string) offset →
  r ≠ EmptyString →
  cs !! r = Some ref →
  0 <= default 0 offset →
  ∃ p1 p2 p3 p4,
    calculatePosition cs l1 w h = inr p1
    ∧ calculatePosition cs l2 w h = inr p2
    ∧ calculatePosition cs l3 w h = inr p3
    ∧ calculatePosition cs l4 w h = inr p4
    ∧ Bounds.left (CalculatedShape.bounds ref) <= Point.x p1
    ∧ Bounds.right (CalculatedShape.bounds ref) <= Point.x p2
    ∧ Bounds.top (CalculatedShape.bounds ref) <= Point.y p3
    ∧ Bounds.bottom (CalculatedShape.bounds ref) <= Point.y p4.
Proof.
  intros H1 H2 H3 H4 Hr Hcs Hoff.
  rewrite (calculatePosition_found _ _ _ _ _ _ _ _ H1 Hr Hcs).
  rewrite (calculatePosition_found _ _ _ _ _ _ _ _ H2 Hr Hcs).
  rewrite (calculatePosition_found _ _ _ _ _ _ _ _ H3 Hr Hcs).
  rewrite (calculatePosition_found _ _ _ _ _ _ _ _ H4 Hr Hcs).
  eexists _, _, _, _. split_and!; try reflexivity; simpl; lra.
Qed.

Lemma tip_touches_alignments_shift_together_witness :
  ∃ p1 p2,
    calculatePosition {[ "center_circle"%string := placedCircle ]}
        (withPosition (relative (Some "center_circle"%string)
                         (Some "tip_touches_left"%string) (Some 5))) 400 400 = inr p1
    ∧ calculatePosition {[ "center_circle"%string := placedCircle ]}
        (withPosition (relative (Some "center_circle"%string)
                         (Some "tip_touches_right"%string) (Some 5))) 400 400 = inr p2
    ∧ Bounds.left (CalculatedShape.bounds placedCircle) <= Point.x p1
    ∧ Bounds.right (CalculatedShape.bounds placedCircle) <= Point.x p2.
Proof.
  destruct (tip_touches_alignments_shift_together
              {[ "center_circle"%string := placedCircle ]}
              (withPosition (relative (Some "center_circle"%string)
                               (Some "tip_touches_left"%string) (Some 5)))
              (withPosition (relative (Some "center_circle"%string)
                               (Some "tip_touches_right"%string) (Some 5)))
              (withPosition (relative (Some "center_circle"%string)
                               (Some "tip_touches_top"%string) (Some 5)))
              (withPosition (relative (Some "center_circle"%string)
                               (Some "tip_touches_bottom"%string) (Some 5)))
              placedCircle 400 400 "center_circle" (Some 5)
              eq_refl eq_refl eq_refl eq_refl)
    as (p1 & p2 & _ & _ & H1 & H2 & _ & _ & Hl & Hrt & _).
  - discriminate.
  - apply lookup_singleton_eq.
  - simpl. lra.
  - by exists p1, p2.
Defined.

(** X9: a layer placed relative to a referent follows it: when the
    referent is placed at a centre further right, the layer does not come
    out further left, and likewise downwards; a coordinate of the centre
    of the referent that stays the same leaves this coordinate of the
    layer the same; whatever the alignment, the offset and the canvas. *)
Theorem relative_position_follows_referent
    cs cs' layer refLayer c c' w h w' h' r p :
  referent (SemanticLayer.position layer) = Some r →
  cs !! r = Some (placement refLayer c) →
  cs' !! r = Some (placement refLayer c') →
  calculatePosition cs layer w h = inr p →
  ∃ p', calculatePosition cs' layer w' h' = inr p'
        ∧ (Point.x c <= Point.x c' → Point.x p <= Point.x p')
        ∧ (Point.y c <= Point.y c' → Point.y p <= Point.y p')
        ∧ (Point.x c = Point.x c' → Point.x p = Point.x p')
        ∧ (Point.y c = Point.y c' → Point.y p = Point.y p').
Proof.
  intros (Hr & alignment & offset & Hpos)%referent_inv Hcs Hcs' Hp.
  rewrite (calculatePosition_found _ _ _ _ _ _ _ _ Hpos Hr Hcs) in Hp.
  rewrite (calculatePosition_found _ _ _ _ _ _ _ _ Hpos Hr Hcs').
  pose proof (calculateBounds_monotone (SemanticLayer.shape refLayer)
                (Point.x c) (Point.y c) (Point.x c') (Point.y c'))
    as (Hx & Hy & Hx' & Hy').
  simpl in *.
  repeat case_decide; injection Hp as <-; eexists; (split; [reflexivity|]);
    simpl; split_and!; intros Hc;
    try (destruct (Hx Hc)); try (destruct (Hy Hc));
    try (destruct (Hx' Hc)); try (destruct (Hy' Hc)); lra.
Qed.

Lemma relative_position_follows_referent_witness :
  ∃ p',
    calculatePosition
        {[ "center_circle"%string := placement center_circle (Point.mk 210 200) ]}
        left_tri 400 400 = inr p'
    ∧ 200 - 30 + 0 <= Point.x p' ∧ 200 = Point.y p'.
Proof.
  destruct (relative_position_follows_referent
           {[ "center_circle"%string := placement center_circle (Point.mk 200 200) ]}
           {[ "center_circle"%string := placement center_circle (Point.mk 210 200) ]}
           left_tri center_circle (Point.mk 200 200) (Point.mk 210 200) 400 400 400 400
           "center_circle" (Point.mk (200 - 30 + 0) 200))
    as (p' & Hp' & Hx & _ & _ & Hy).
  - reflexivity.
  - apply lookup_singleton_eq.
  - apply lookup_singleton_eq.
  - by rewrite (calculatePosition_found _ left_tri 400 400 "center_circle" _ _
                  (placement center_circle (Point.mk 200 200)) eq_refl
                  ltac:(discriminate) (lookup_singleton_eq _ _)).
  - exists p'. split_and!; [done | apply Hx; simpl; lra | by apply Hy].
Defined.

End AgainstPlacement.

(** ** The sort on lists that are in order already, or repeat an id *)

Section SortAgain.

(** On a list in which every referent comes before the layer that names
    it, no call of [processLayer] has to recurse: the loop appends the
    layers as they come. *)
Lemma processLayers_in_order layerMap n post pre st :
  (∀ x, x ∈ processed st ↔ x ∈ SemanticLayer.id <$> pre) →
  NoDup (SemanticLayer.id <$> pre ++ post) →
  (∀ s1 L s2 name ref,
     pre ++ post = s1 ++ L :: s2 →
     referent (SemanticLayer.position L) = Some name →
     layerMap !! name = Some ref →
     SemanticLayer.id ref ∈ SemanticLayer.id <$> s1) →
  ∃ st', processLayers layerMap (S n) st post = Some st'
         ∧ sorted st' = sorted st ++ post.
Proof.
  revert pre st. induction post as [|l rest IH]; intros pre st Hp Hnd Hord.
  { exists st. by rewrite app_nil_r. }
  assert (Hfresh : SemanticLayer.id l ∉ processed st).
  { rewrite Hp. rewrite fmap_app, fmap_cons in Hnd.
    apply NoDup_app in Hnd as (_ & Hdisj & _).
    intros Hin. apply (Hdisj _ Hin). apply elem_of_cons. by left. }
  destruct (IH (pre ++ [l]) (push l st)) as (st' & Hst' & Hsorted).
  - intros x. simpl. rewrite elem_of_union, elem_of_singleton, Hp.
    rewrite fmap_app, elem_of_app. simpl. rewrite list_elem_of_singleton. tauto.
  - by rewrite <- app_assoc.
  - intros s1 L s2 name ref Heq. apply (Hord s1 L s2 name ref).
    by rewrite <- Heq, <- app_assoc.
  - exists st'. split.
    + cbn [processLayers]. rewrite processLayer_push; [done | done |].
      intros name ref Hname Hget. apply Hp. by apply (Hord pre l rest name ref).
    + rewrite Hsorted. simpl. by rewrite <- app_assoc.
Qed.

Lemma sort_in_order layers n :
  NoDup (SemanticLayer.id <$> layers) →
  (∀ s1 L s2 name,
     layers = s1 ++ L :: s2 →
     referent (SemanticLayer.position L) = Some name →
     name ∈ SemanticLayer.id <$> layers →
     name ∈ SemanticLayer.id <$> s1) →
  sortLayersByDependencies (S n) layers = Some layers.
Proof.
  intros Hnd Hord. unfold sortLayersByDependencies.
  destruct (processLayers_in_order (layerMapOf layers) n layers []
              {| sorted := []; processed := ∅ |}) as (st' & -> & Hsorted).
  - intros x. rewrite fmap_nil, elem_of_nil. set_solver.
  - done.
  - intros s1 L s2 name ref Heq Hname [Hin <-]%layerMapOf_Some.
    apply (Hord s1 L s2 _ Heq Hname). by apply list_elem_of_fmap_2.
  - simpl in *. by rewrite Hsorted.
Qed.

(** When the sort returns, on layers of unique ids, there is no cycle. *)
Lemma sort_Some_acyclic layers fuel sortedLayers :
  NoDup (SemanticLayer.id <$> layers) →
  sortLayersByDependencies fuel layers = Some sortedLayers →
  acyclic layers.
Proof.
  intros Hnd Hsort L HL Hcyc.
  rewrite (sortLayersByDependencies_cycle layers Hnd fuel) in Hsort; [done|].
  by exists L.
Qed.

(** What the sort returns, on layers of unique ids, whatever the room on
    the stack that let it return. *)
Lemma sort_Some_sorted layers fuel sortedLayers :
  NoDup (SemanticLayer.id <$> layers) →
  sortLayersByDependencies fuel layers = Some sortedLayers →
  sortedLayers ≡ₚ layers
  ∧ NoDup (SemanticLayer.id <$> sortedLayers)
  ∧ referentsFirst layers sortedLayers.
Proof.
  intros Hnd Hsort.
  pose proof (sort_Some_acyclic _ _ _ Hnd Hsort) as Hacyc.
  destruct (sortLayersByDependencies_sorted layers Hnd (fuel `max` length layers) Hacyc)
    as (s & Hs & Hperm & Hnd' & Hfirst); [lia|].
  rewrite (sortLayersByDependencies_mono fuel _ _ _ (Nat.le_max_l _ _) Hsort) in Hs.
  by injection Hs as <-.
Qed.

(** X10: a list of layers of unique ids in which every referent that is
    a layer comes before the layer that names it is returned as it is,
    and one frame of stack is enough for it. *)
Theorem sortLayersByDependencies_ordered_unchanged layers n :
  NoDup (SemanticLayer.id <$> layers) →
  referentsFirst layers layers →
  sortLayersByDependencies (S n) layers = Some layers.
Proof. intros Hnd Hord. by apply sort_in_order. Qed.

Lemma sortLayersByDependencies_ordered_unchanged_witness :
  sortLayersByDependencies 1 [center_circle; right_tri; left_tri]
    = Some [center_circle; right_tri; left_tri].
Proof.
  apply sortLayersByDependencies_ordered_unchanged; [by_evaluation|].
  intros s1 L s2 name Heq Hname Hin.
  destruct s1 as [|a [|b [|c s1]]]; simplify_eq/=.
  - apply elem_of_cons. by left.
  - apply elem_of_cons. by left.
  - by destruct s1.
Defined.

(** X11: the sort is idempotent: what it returns, on layers of unique
    ids, is returned as it is when it is sorted again. *)
Theorem sortLayersByDependencies_idempotent layers fuel sortedLayers n :
  NoDup (SemanticLayer.id <$> layers) →
  sortLayersByDependencies fuel layers = Some sortedLayers →
  sortLayersByDependencies (S n) sortedLayers = Some sortedLayers.
Proof.
  intros Hnd Hsort.
  destruct (sort_Some_sorted _ _ _ Hnd Hsort) as (Hperm & Hnd' & Hfirst).
  apply sort_in_order; [done|].
  intros s1 L s2 name Heq Hname Hin. apply (Hfirst s1 L s2 name Heq Hname).
  by rewrite <- Hperm.
Qed.

Lemma sortLayersByDependencies_idempotent_witness :
  sortLayersByDependencies 1 [center_circle; left_tri; right_tri]
    = Some [center_circle; left_tri; right_tri].
Proof.
  apply (sortLayersByDependencies_idempotent [left_tri; right_tri; center_circle] 2).
  - by_evaluation.
  - vm_compute. reflexivity.
Defined.

Lemma firstOfEachId_fresh seen layers :
  NoDup (SemanticLayer.id <$> firstOfEachId seen layers)
  ∧ ∀ x, x ∈ SemanticLayer.id <$> firstOfEachId seen layers → x ∉ seen.
Proof.
  revert seen. induction layers as [|l rest IH]; intros seen; simpl.
  { split; [constructor | by intros x ?%elem_of_nil]. }
  destruct (decide (SemanticLayer.id l ∈ seen)) as [Hin|Hnin]; [apply IH|].
  destruct (IH ({[SemanticLayer.id l]} ∪ seen)) as [Hnd Hfresh].
  rewrite fmap_cons. split.
  - apply NoDup_cons. split; [|done].
    intros Hin%Hfresh. apply Hin, elem_of_union_l. by apply elem_of_singleton.
  - intros x [-> | Hx%Hfresh]%elem_of_cons; [done|].
    intros Hin. by apply Hx, elem_of_union_r.
Qed.

Lemma firstOfEachId_unique seen layers :
  NoDup (SemanticLayer.id <$> layers) →
  (∀ x, x ∈ SemanticLayer.id <$> layers → x ∉ seen) →
  firstOfEachId seen layers = layers.
Proof.
  revert seen. induction layers as [|l rest IH]; intros seen Hnd Hfresh; [done|].
  rewrite fmap_cons in Hnd, Hfresh. apply NoDup_cons in Hnd as [Hl Hnd]. simpl.
  rewrite decide_False by (apply Hfresh, elem_of_cons; by left).
  f_equal. apply IH; [done|].
  intros x Hx. rewrite elem_of_union, elem_of_singleton.
  intros [-> | Hin]; [done|]. revert Hin. apply Hfresh, elem_of_cons. by right.
Qed.

(** X12: when no layer has a referent, the sort returns the first layer
    of each id, in declaration order: a layer whose id is the id of a
    layer before it is left out; the ids of the result are unique, and
    the list is returned as it is exactly when its ids are unique. *)
Theorem sortLayersByDependencies_keeps_first_of_each_id layers n :
  (∀ L, L ∈ layers → referent (SemanticLayer.position L) = None) →
  sortLayersByDependencies (S n) layers = Some (firstOfEachId ∅ layers)
  ∧ NoDup (SemanticLayer.id <$> firstOfEachId ∅ layers)
  ∧ (firstOfEachId ∅ layers = layers ↔ NoDup (SemanticLayer.id <$> layers)).
Proof.
  intros Hnone. split_and!.
  - unfold sortLayersByDependencies.
    assert (Hloop : ∀ ls st,
      (∀ L, L ∈ ls → referent (SemanticLayer.position L) = None) →
      ∃ st', processLayers (layerMapOf layers) (S n) st ls = Some st'
             ∧ sorted st' = sorted st ++ firstOfEachId (processed st) ls).
    { induction ls as [|l rest IH]; intros st Hls.
      { exists st. by rewrite app_nil_r. }
      assert (Hrest : ∀ L, L ∈ rest → referent (SemanticLayer.position L) = None).
      { intros L HL. apply Hls, elem_of_cons. by right. }
      cbn [processLayers firstOfEachId].
      destruct (decide (SemanticLayer.id l ∈ processed st)) as [Hin|Hnin].
      - rewrite (processLayer_processed _ _ _ _ Hin). by apply IH.
      - rewrite processLayer_push; [| done |].
        + destruct (IH (push l st) Hrest) as (st' & -> & Hsorted).
          exists st'. split; [done|]. rewrite Hsorted. simpl. by rewrite <- app_assoc.
        + intros name ref Hname. rewrite Hls in Hname; [done|].
          apply elem_of_cons. by left. }
    destruct (Hloop layers {| sorted := []; processed := ∅ |} Hnone) as (st' & -> & Hsorted).
    simpl in *. by rewrite Hsorted.
  - apply firstOfEachId_fresh.
  - split; [intros <-; apply firstOfEachId_fresh|].
    intros Hnd. apply firstOfEachId_unique; [done|]. intros x _. apply not_elem_of_empty.
Qed.

Lemma sortLayersByDependencies_keeps_first_of_each_id_witness :
  sortLayersByDependencies 1
      [center_circle; shaped "center_circle" (diamond 10) (absolute 5 5)]
    = Some [center_circle].
Proof.
  refine (proj1 (sortLayersByDependencies_keeps_first_of_each_id
                   [center_circle; shaped "center_circle" (diamond 10) (absolute 5 5)] 0 _)).
  intros L HL.
  repeat (apply elem_of_cons in HL as [-> | HL]); [done | done | by apply elem_of_nil in HL].
Defined.

End SortAgain.

(** ** The run on well-formed specifications *)

Section RunFacts.
Local Open Scope R_scope.

(** [calculatePosition] reads the map at the referent only. *)
Lemma calculatePosition_frame cs cs' layer w h :
  (∀ name, referent (SemanticLayer.position layer) = Some name →
           cs !! name = cs' !! name) →
  calculatePosition cs layer w h = calculatePosition cs' layer w h.
Proof.
  intros H. unfold calculatePosition.
  destruct (SemanticLayer.position layer) as [| |relativeTo alignment offset]; try done.
  simpl in H. destruct (truthy relativeTo) as [name|]; [|done].
  by rewrite (H name eq_refl).
Qed.

(** The only way in which [calculatePosition] throws. *)
Lemma calculatePosition_throws cs layer w h e :
  calculatePosition cs layer w h = inl e →
  ∃ name, e = ReferenceNotFound name
          ∧ referent (SemanticLayer.position layer) = Some name
          ∧ cs !! name = None.
Proof.
  unfold calculatePosition, referent.
  destruct (SemanticLayer.position layer) as [| |relativeTo alignment offset]; try done.
  destruct (truthy relativeTo) as [name|]; [|done].
  destruct (cs !! name) as [ref|] eqn:Hcs.
  - simpl. by repeat case_decide.
  - intros [= <-]. by exists name.
Qed.

(** The loop over the sorted layers when every referent is a layer: it
    ends without a throw, with a placement for each layer, at the centre
    that the layer has against the map as the loop leaves it. *)
Lemma resolveLayers_success layers canvasSize post pre svg cs :
  NoDup (SemanticLayer.id <$> pre ++ post) →
  (∀ x, is_Some (cs !! x) ↔ x ∈ SemanticLayer.id <$> pre) →
  referentsFirst layers (pre ++ post) →
  (∀ L r, L ∈ post → referent (SemanticLayer.position L) = Some r →
          r ∈ SemanticLayer.id <$> layers) →
  ∃ cs',
    resolveLayers canvasSize post svg cs = (cs', inr (svg ++ (renderAt cs' <$> post)))
    ∧ (∀ x, is_Some (cs' !! x) ↔ x ∈ SemanticLayer.id <$> pre ++ post)
    ∧ (∀ x, x ∈ SemanticLayer.id <$> pre → cs' !! x = cs !! x)
    ∧ (∀ L, L ∈ post →
         ∃ center,
           calculatePosition cs' L (CanvasSize.width canvasSize)
             (CanvasSize.height canvasSize) = inr center
           ∧ cs' !! SemanticLayer.id L = Some (placement L center)).
Proof.
  revert pre svg cs.
  induction post as [|l rest IH]; intros pre svg cs Hnd Hcs Hfirst Hex.
  { exists cs. rewrite !app_nil_r. split_and!; try done. by intros L ?%elem_of_nil. }
  assert (Hl : SemanticLayer.id l ∉ SemanticLayer.id <$> pre).
  { rewrite fmap_app, fmap_cons in Hnd. apply NoDup_app in Hnd as (_ & Hdisj & _).
    intros Hin. apply (Hdisj _ Hin). apply elem_of_cons. by left. }
  assert (Href : ∀ name, referent (SemanticLayer.position l) = Some name →
                         name ∈ SemanticLayer.id <$> pre).
  { intros name Hname. apply (Hfirst pre l rest name eq_refl Hname).
    apply (Hex l name); [apply elem_of_cons; by left | done]. }
  destruct (calculatePosition_returns cs l (CanvasSize.width canvasSize)
              (CanvasSize.height canvasSize)) as [c Hc].
  { intros name Hname. by apply Hcs, Href. }
  destruct (IH (pre ++ [l])
              (svg ++ [layerToSvg l (Point.x c) (Point.y c)])
              (<[SemanticLayer.id l := placement l c]> cs))
    as (cs' & Hrun & Hdom & Hkeep & Hfix).
  - by rewrite <- app_assoc.
  - intros x. rewrite lookup_insert_is_Some', fmap_app, elem_of_app, Hcs. simpl.
    rewrite list_elem_of_singleton. split; intros [?|?]; auto.
  - by rewrite <- app_assoc.
  - intros L r HL. apply Hex, elem_of_cons. by right.
  - assert (Hmine : cs' !! SemanticLayer.id l = Some (placement l c)).
    { rewrite Hkeep, lookup_insert_eq; [done|].
      rewrite fmap_app, elem_of_app. right. apply elem_of_cons. by left. }
    assert (Hold : ∀ x, x ∈ SemanticLayer.id <$> pre → cs' !! x = cs !! x).
    { intros x Hx. rewrite Hkeep, lookup_insert_ne; [done | intros <-; by apply Hl |].
      rewrite fmap_app, elem_of_app. by left. }
    exists cs'. split_and!.
    + cbn [resolveLayers]. rewrite Hc. unfold placement in Hrun. rewrite Hrun.
      rewrite fmap_cons. unfold renderAt at 2. rewrite Hmine. simpl.
      by rewrite <- app_assoc.
    + intros x. rewrite Hdom. by rewrite <- app_assoc.
    + done.
    + intros L [-> | HL]%elem_of_cons; [|by apply Hfix].
      exists c. split; [|done]. rewrite <- Hc. apply calculatePosition_frame.
      intros name Hname. by apply Hold, Href.
Qed.

(** A throw of the loop names an identifier that no layer has. *)
Lemma resolveLayers_throws layers canvasSize post pre svg cs cs' m :
  (∀ x, is_Some (cs !! x) ↔ x ∈ SemanticLayer.id <$> pre) →
  referentsFirst layers (pre ++ post) →
  resolveLayers canvasSize post svg cs = (cs', inl (ReferenceNotFound m)) →
  (m ∉ SemanticLayer.id <$> layers)
  ∧ ∃ L, L ∈ post ∧ referent (SemanticLayer.position L) = Some m.
Proof.
  revert pre svg cs. induction post as [|l rest IH]; intros pre svg cs Hcs Hfirst Hrun.
  { discriminate Hrun. }
  cbn [resolveLayers] in Hrun.
  destruct (calculatePosition cs l _ _) as [e|c] eqn:Hc.
  - injection Hrun as <- ->.
    apply calculatePosition_throws in Hc as (name & [= <-] & Hname & Hnone).
    split; [|exists l; split; [apply elem_of_cons; by left | done]].
    intros Hin. apply eq_None_not_Some in Hnone. apply Hnone, Hcs.
    by apply (Hfirst pre l rest m).
  - apply IH with (pre := pre ++ [l]) in Hrun as [Hm (L & HL & HLm)].
    + split; [done|]. exists L. split; [apply elem_of_cons; by right | done].
    + intros x. rewrite lookup_insert_is_Some', fmap_app, elem_of_app, Hcs. simpl.
      rewrite list_elem_of_singleton. split; intros [?|?]; auto.
    + by rewrite <- app_assoc.
Qed.

(** The run on a well-formed specification. *)
Lemma generateSemanticSvg_wellformed spec fuel cs0 :
  let layers := SemanticSvgSpec.layers spec in
  let canvasSize := SemanticSvgSpec.canvasSize spec in
  NoDup (SemanticLayer.id <$> layers) →
  acyclic layers →
  referentsExist layers →
  length layers ≤ fuel →
  ∃ sortedLayers cs,
    sortLayersByDependencies fuel layers = Some sortedLayers
    ∧ sortedLayers ≡ₚ layers
    ∧ referentsFirst layers sortedLayers
    ∧ generateSemanticSvg fuel spec cs0
      = Some (cs, inr (join newline
                         (svgHeader spec ++ (renderAt cs <$> sortedLayers)
                            ++ [[Str "</svg>"]])))
    ∧ (∀ x, is_Some (cs !! x) ↔ x ∈ SemanticLayer.id <$> layers)
    ∧ (∀ L, L ∈ layers →
         ∃ center,
           calculatePosition cs L (CanvasSize.width canvasSize)
             (CanvasSize.height canvasSize) = inr center
           ∧ cs !! SemanticLayer.id L = Some (placement L center)).
Proof.
  intros layers canvasSize Hnd Hacyc Hex Hfuel.
  destruct (sortLayersByDependencies_sorted layers Hnd fuel Hacyc Hfuel)
    as (sortedLayers & Hsort & Hperm & Hnd' & Hfirst).
  destruct (resolveLayers_success layers canvasSize sortedLayers [] (svgHeader spec) ∅)
    as (cs & Hrun & Hdom & _ & Hfix); try done.
  - intros x. rewrite lookup_empty, fmap_nil, elem_of_nil.
    split; [by intros [? ?] | done].
  - intros L r HL. apply Hex. by rewrite <- Hperm.
  - exists sortedLayers, cs. split_and!; try done.
    + unfold generateSemanticSvg. fold layers canvasSize. rewrite Hsort, Hrun.
      by rewrite <- app_assoc.
    + intros x. rewrite Hdom. simpl. by rewrite Hperm.
    + intros L HL. apply Hfix. by rewrite Hperm.
Qed.

End RunFacts.

Section RunOutcomes.
Local Open Scope R_scope.

(** The valve, declared with the circle between the triangles. *)
Lemma ballValve_uniqueIds :
  NoDup (SemanticLayer.id <$> [left_tri; center_circle; right_tri]).
Proof. by_evaluation. Qed.

Lemma ballValve_acyclic : acyclic [left_tri; center_circle; right_tri].
Proof. apply acyclicb_acyclic; [by_evaluation | vm_compute; reflexivity]. Qed.

Lemma ballValve_referentsExist : referentsExist [left_tri; center_circle; right_tri].
Proof.
  intros L r HL Href.
  repeat (apply elem_of_cons in HL as [-> | HL]); [.. | by apply elem_of_nil in HL];
    try discriminate Href; injection Href as <-; by_evaluation.
Qed.

(** The references of a list and of a permutation of it are the same. *)
Lemma acyclic_Permutation layers layers' :
  layers' ≡ₚ layers → acyclic layers → acyclic layers'.
Proof.
  intros Hperm Hacyc L HL Hcyc. apply (Hacyc L); [by rewrite <- Hperm|].
  apply (tc_congruence (λ l, l) (relativeToLayer layers)) in Hcyc; [done|].
  intros x y [Hy Hxy]. split; [by rewrite <- Hperm | done].
Qed.

Lemma referentsExist_Permutation layers layers' :
  layers' ≡ₚ layers → referentsExist layers → referentsExist layers'.
Proof.
  intros Hperm Hex L r HL Href. rewrite Hperm. apply (Hex L); [by rewrite <- Hperm | done].
Qed.

(** Two maps that hold, for each layer of [s], a placement at the centre
    that the layer has against the map itself, hold the same placements. *)
Lemma placements_unique layers s w h cs1 cs2 :
  referentsFirst layers s →
  (∀ x, x ∈ SemanticLayer.id <$> s → x ∈ SemanticLayer.id <$> layers) →
  (∀ L r, L ∈ s → referent (SemanticLayer.position L) = Some r →
          r ∈ SemanticLayer.id <$> s) →
  (∀ L, L ∈ s → ∃ c, calculatePosition cs1 L w h = inr c
                     ∧ cs1 !! SemanticLayer.id L = Some (placement L c)) →
  (∀ L, L ∈ s → ∃ c, calculatePosition cs2 L w h = inr c
                     ∧ cs2 !! SemanticLayer.id L = Some (placement L c)) →
  ∀ L, L ∈ s → cs1 !! SemanticLayer.id L = cs2 !! SemanticLayer.id L.
Proof.
  intros Hfirst Hids Hex H1 H2.
  assert (Hprefix : ∀ s1 s2, s = s1 ++ s2 →
            ∀ L, L ∈ s1 → cs1 !! SemanticLayer.id L = cs2 !! SemanticLayer.id L).
  { induction s1 as [|l0 s1 IH] using rev_ind; intros s2 Hs L HL.
    { by apply elem_of_nil in HL. }
    rewrite <- app_assoc in Hs. simpl in Hs.
    apply elem_of_app in HL as [HL | <-%list_elem_of_singleton]; [by apply (IH _ Hs)|].
    assert (Hin : L ∈ s) by (rewrite Hs; apply elem_of_app; right; apply elem_of_cons; by left).
    destruct (H1 L Hin) as (c1 & Hc1 & ->). destruct (H2 L Hin) as (c2 & Hc2 & ->).
    rewrite (calculatePosition_frame cs1 cs2) in Hc1; [congruence|].
    intros name Hname.
    pose proof (Hfirst s1 L s2 name Hs Hname (Hids _ (Hex L name Hin Hname))) as Hbefore.
    apply list_elem_of_fmap in Hbefore as (R & -> & HR). by apply (IH _ Hs). }
  intros L HL. apply (Hprefix s []); [by rewrite app_nil_r | done].
Qed.

(** X13: on a specification of unique ids, without a cycle, whose
    referents are all layers, the run returns markup, and the map then
    holds a placement for the ids of the layers and for nothing else:
    each layer is placed at the centre that [calculatePosition] gives for
    it against this map, with the box of its shape about this centre. *)
Theorem generateSemanticSvg_places_every_layer spec fuel cs0 :
  let layers := SemanticSvgSpec.layers spec in
  let canvasSize := SemanticSvgSpec.canvasSize spec in
  NoDup (SemanticLayer.id <$> layers) →
  acyclic layers →
  referentsExist layers →
  length layers ≤ fuel →
  ∃ cs markup,
    generateSemanticSvg fuel spec cs0 = Some (cs, inr markup)
    ∧ (∀ x, is_Some (cs !! x) ↔ x ∈ SemanticLayer.id <$> layers)
    ∧ (∀ L, L ∈ layers →
         ∃ center,
           calculatePosition cs L (CanvasSize.width canvasSize)
             (CanvasSize.height canvasSize) = inr center
           ∧ cs !! SemanticLayer.id L
             = Some {| CalculatedShape.id := SemanticLayer.id L;
                       CalculatedShape.centerX := Point.x center;
                       CalculatedShape.centerY := Point.y center;
                       CalculatedShape.bounds :=
                         calculateBounds (SemanticLayer.shape L)
                           (Point.x center) (Point.y center) |}).
Proof.
  intros layers canvasSize Hnd Hacyc Hex Hfuel.
  destruct (generateSemanticSvg_wellformed spec fuel cs0 Hnd Hacyc Hex Hfuel)
    as (sortedLayers & cs & _ & _ & _ & Hrun & Hdom & Hfix).
  by eexists cs, _.
Qed.

Lemma generateSemanticSvg_places_every_layer_witness :
  ∃ cs markup,
    generateSemanticSvg 3 (ballValve [left_tri; center_circle; right_tri]) ∅
      = Some (cs, inr markup)
    ∧ (∀ x, is_Some (cs !! x) ↔ x ∈ ["left"; "center_circle"; "right"]%string).
Proof.
  destruct (generateSemanticSvg_places_every_layer
              (ballValve [left_tri; center_circle; right_tri]) 3 ∅
              ballValve_uniqueIds ballValve_acyclic ballValve_referentsExist)
    as (cs & markup & Hrun & Hdom & _); [simpl; lia|].
  by exists cs, markup.
Defined.

(** X14: on such a specification the markup is the header, then one
    element per layer, in the order that the sort returns and not in
    declaration order, each drawn at the centre that the map holds for its
    id, then the closing tag, joined by newlines. *)
Theorem generateSemanticSvg_markup_in_dependency_order spec fuel cs0 :
  let layers := SemanticSvgSpec.layers spec in
  NoDup (SemanticLayer.id <$> layers) →
  acyclic layers →
  referentsExist layers →
  length layers ≤ fuel →
  ∃ sortedLayers cs,
    sortLayersByDependencies fuel layers = Some sortedLayers
    ∧ generateSemanticSvg fuel spec cs0
      = Some (cs, inr (join newline
                         (svgHeader spec ++ (renderAt cs <$> sortedLayers)
                            ++ [[Str "</svg>"]]))).
Proof.
  intros layers Hnd Hacyc Hex Hfuel.
  destruct (generateSemanticSvg_wellformed spec fuel cs0 Hnd Hacyc Hex Hfuel)
    as (sortedLayers & cs & Hsort & _ & _ & Hrun & _).
  by exists sortedLayers, cs.
Qed.

Lemma generateSemanticSvg_markup_in_dependency_order_witness :
  ∃ cs,
    generateSemanticSvg 3 (ballValve [left_tri; center_circle; right_tri]) ∅
      = Some (cs, inr (join newline
                         (svgHeader (ballValve [left_tri; center_circle; right_tri])
                            ++ (renderAt cs <$> [center_circle; left_tri; right_tri])
                            ++ [[Str "</svg>"]]))).
Proof.
  destruct (generateSemanticSvg_markup_in_dependency_order
              (ballValve [left_tri; center_circle; right_tri]) 3 ∅
              ballValve_uniqueIds ballValve_acyclic ballValve_referentsExist)
    as (sortedLayers & cs & Hsort & Hrun); [simpl; lia|].
  exists cs. rewrite Hrun.
  assert (sortedLayers = [center_circle; left_tri; right_tri]) as ->; [|done].
  assert (Hs : sortLayersByDependencies 3 [left_tri; center_circle; right_tri]
               = Some [center_circle; left_tri; right_tri]) by (vm_compute; reflexivity).
  cbn [SemanticSvgSpec.layers ballValve] in Hsort. congruence.
Defined.

(** X15: on a specification of unique ids, the run returns markup only
    when there is no cycle and every referent is a layer. *)
Theorem generateSemanticSvg_markup_only_if_wellformed spec fuel cs0 cs markup :
  let layers := SemanticSvgSpec.layers spec in
  NoDup (SemanticLayer.id <$> layers) →
  generateSemanticSvg fuel spec cs0 = Some (cs, inr markup) →
  acyclic layers ∧ referentsExist layers.
Proof.
  intros layers Hnd Hrun. unfold generateSemanticSvg in Hrun. fold layers in Hrun.
  destruct (sortLayersByDependencies fuel layers) as [sortedLayers|] eqn:Hsort; [|done].
  destruct (sort_Some_sorted _ _ _ Hnd Hsort) as (Hperm & Hnd' & Hfirst).
  split; [by eapply sort_Some_acyclic|].
  intros L r HL Href.
  destruct (decide (r ∈ SemanticLayer.id <$> layers)) as [|Hmiss]; [done|].
  destruct (resolveLayers_unknown_reference layers (SemanticSvgSpec.canvasSize spec)
              sortedLayers [] (svgHeader spec) ∅)
    as (cs' & m' & Hres & _).
  - intros x. rewrite lookup_empty, fmap_nil, elem_of_nil.
    split; [by intros [? ?] | done].
  - intros l Hl. simpl in Hl. by rewrite <- Hperm.
  - done.
  - exists L, r. split_and!; try done. by rewrite Hperm.
  - by rewrite Hres in Hrun.
Qed.

Lemma generateSemanticSvg_markup_only_if_wellformed_witness :
  acyclic [right_tri; left_tri; center_circle]
  ∧ referentsExist [right_tri; left_tri; center_circle].
Proof.
  destruct (ballValve_sorted [right_tri; left_tri; center_circle]
              [center_circle; right_tri; left_tri] 2 ∅)
    as (cs & markup & Hrun & _).
  - lia.
  - vm_compute. reflexivity.
  - by right.
  - apply (generateSemanticSvg_markup_only_if_wellformed
             (ballValve [right_tri; left_tri; center_circle]) 2 ∅ cs markup);
      [by_evaluation | exact Hrun].
Defined.

(** X16: on a specification of unique ids, when the run throws
    [Reference shape "m" not found] (the error that the generator itself
    throws; the run that does not return on a cycle is another matter),
    [m] is an identifier that a relative position names and that is the id
    of no layer: the run never reports a referent that exists. *)
Theorem generateSemanticSvg_error_names_missing_referent spec fuel cs0 cs m :
  let layers := SemanticSvgSpec.layers spec in
  NoDup (SemanticLayer.id <$> layers) →
  generateSemanticSvg fuel spec cs0 = Some (cs, inl (ReferenceNotFound m)) →
  (m ∉ SemanticLayer.id <$> layers)
  ∧ ∃ L, L ∈ layers ∧ referent (SemanticLayer.position L) = Some m.
Proof.
  intros layers Hnd Hrun. unfold generateSemanticSvg in Hrun. fold layers in Hrun.
  destruct (sortLayersByDependencies fuel layers) as [sortedLayers|] eqn:Hsort; [|done].
  destruct (sort_Some_sorted _ _ _ Hnd Hsort) as (Hperm & Hnd' & Hfirst).
  destruct (resolveLayers _ sortedLayers _ _) as [cs' [e'|svg]] eqn:Hres; [|done].
  injection Hrun as <- ->.
  destruct (resolveLayers_throws layers (SemanticSvgSpec.canvasSize spec) sortedLayers []
              (svgHeader spec) ∅ cs' m) as [Hm (L & HL & HLm)];
    try done.
  - intros x. rewrite lookup_empty, fmap_nil, elem_of_nil.
    split; [by intros [? ?] | done].
  - split; [done|]. exists L. split; [by rewrite <- Hperm | done].
Qed.

Lemma generateSemanticSvg_error_names_missing_referent_witness :
  ("valve_body"%string ∉ SemanticLayer.id <$> [left_tri; center_circle; stray_tri])
  ∧ ∃ L, L ∈ [left_tri; center_circle; stray_tri]
         ∧ referent (SemanticLayer.position L) = Some "valve_body"%string.
Proof.
  assert (Hrun : ∃ cs,
    generateSemanticSvg 3 (ballValve [left_tri; center_circle; stray_tri]) ∅
      = Some (cs, inl (ReferenceNotFound "valve_body"))).
  { eexists. vm_compute. reflexivity. }
  destruct Hrun as [cs Hrun].
  apply (generateSemanticSvg_error_names_missing_referent
           (ballValve [left_tri; center_circle; stray_tri]) 3 ∅ cs "valve_body");
    [by_evaluation | exact Hrun].
Defined.

(** X17: the placements do not depend on the declaration order: on two
    specifications with the same canvas whose layers (unique ids, no
    cycle, every referent a layer) are a permutation of each other, the
    two runs leave the same map. *)
Theorem placements_independent_of_declaration_order spec spec' fuel cs0 cs0' :
  SemanticSvgSpec.layers spec' ≡ₚ SemanticSvgSpec.layers spec →
  SemanticSvgSpec.canvasSize spec' = SemanticSvgSpec.canvasSize spec →
  NoDup (SemanticLayer.id <$> SemanticSvgSpec.layers spec) →
  acyclic (SemanticSvgSpec.layers spec) →
  referentsExist (SemanticSvgSpec.layers spec) →
  length (SemanticSvgSpec.layers spec) ≤ fuel →
  ∃ cs markup markup',
    generateSemanticSvg fuel spec cs0 = Some (cs, inr markup)
    ∧ generateSemanticSvg fuel spec' cs0' = Some (cs, inr markup').
Proof.
  intros Hperm Hcanvas Hnd Hacyc Hex Hfuel.
  destruct (generateSemanticSvg_wellformed spec fuel cs0 Hnd Hacyc Hex Hfuel)
    as (s & cs & _ & Hs & Hfirst & Hrun & Hdom & Hfix).
  destruct (generateSemanticSvg_wellformed spec' fuel cs0')
    as (s' & cs' & _ & _ & _ & Hrun' & Hdom' & Hfix').
  { by rewrite Hperm. }
  { by apply (acyclic_Permutation (SemanticSvgSpec.layers spec)). }
  { by apply (referentsExist_Permutation (SemanticSvgSpec.layers spec)). }
  { by rewrite Hperm. }
  rewrite Hcanvas in Hfix'.
  assert (cs' = cs) as ->; [|by eexists cs, _, _].
  apply map_eq. intros x.
  destruct (decide (x ∈ SemanticLayer.id <$> SemanticSvgSpec.layers spec)) as [Hx|Hx].
  - apply list_elem_of_fmap in Hx as (L & -> & HL). symmetry.
    apply (placements_unique (SemanticSvgSpec.layers spec) s
             (CanvasSize.width (SemanticSvgSpec.canvasSize spec))
             (CanvasSize.height (SemanticSvgSpec.canvasSize spec))); try done.
    + intros y. by rewrite Hs.
    + intros L' r HL' Hr. rewrite Hs. apply (Hex L'); [by rewrite <- Hs | done].
    + intros L' HL'. apply Hfix. by rewrite <- Hs.
    + intros L' HL'. apply Hfix'. by rewrite Hperm, <- Hs.
    + by rewrite Hs.
  - transitivity (@None CalculatedShape.t).
    + apply eq_None_not_Some. rewrite Hdom', Hperm. done.
    + symmetry. apply eq_None_not_Some. by rewrite Hdom.
Qed.

Lemma placements_independent_of_declaration_order_witness :
  ∃ cs markup markup',
    generateSemanticSvg 3 (ballValve [left_tri; center_circle; right_tri]) ∅
      = Some (cs, inr markup)
    ∧ generateSemanticSvg 3 (ballValve [center_circle; left_tri; right_tri]) ∅
      = Some (cs, inr markup').
Proof.
  apply placements_independent_of_declaration_order;
    [apply perm_swap | done | exact ballValve_uniqueIds | exact ballValve_acyclic
    | exact ballValve_referentsExist | simpl; lia].
Defined.

End RunOutcomes.

(** ** The rectangle that is drawn *)

Section DrawnRectangle.
Local Open Scope R_scope.

(** X18: the rectangle drawn for a layer starts at the corner of the
    box that [calculateBounds] gives for it: its [x] and [y] are the left
    and the top of the box, and its [width] and [height] are those of the
    shape, with or without the [rx] attribute. *)
Theorem rectangle_drawn_on_its_bounds
    (layer : SemanticLayer.t) (width height : R) (rounded : option R) (cx cy : R) :
  SemanticLayer.shape layer = rectangle width height rounded →
  let b := calculateBounds (rectangle width height rounded) cx cy in
  ∃ pre post x y,
    layerToSvg layer cx cy
      = pre ++ join " " [attr "x" (Num x); attr "y" (Num y);
                          attr "width" (Num width); attr "height" (Num height)]
            ++ post
    ∧ x = Bounds.left b ∧ y = Bounds.top b.
Proof.
  intros Hshape b. unfold layerToSvg. rewrite Hshape. cbv zeta.
  assert (Hsplit : ∀ (styleAttrs : list text) (four extra : list text) (comment : text),
    styleAttrs ≠ [] → four ≠ [] →
    ∃ pre post,
      comment ++ [Str "  <"; Str "rect"; Str " "]
        ++ join " " ((styleAttrs ++ four) ++ extra) ++ [Str " />"]
      = pre ++ join " " four ++ post).
  { intros styleAttrs four extra comment Hs Hf.
    exists (comment ++ [Str "  <"; Str "rect"; Str " "] ++ join " " styleAttrs ++ [Str " "]).
    destruct extra as [|e extra].
    - exists [Str " />"]. rewrite app_nil_r, join_app by done.
      rewrite <- !app_assoc. simpl. by rewrite <- ?app_assoc.
    - exists (Str " " :: join " " (e :: extra) ++ [Str " />"]).
      rewrite <- app_assoc, join_app by (done || by destruct four).
      rewrite (join_app _ four) by done.
      rewrite <- !app_assoc. simpl. by rewrite <- ?app_assoc. }
  set (styleAttrs := [attr "id" (Str (SemanticLayer.id layer))] ++ _).
  set (four := [attr "x" _; attr "y" _; attr "width" _; attr "height" _]).
  assert (Hrx : ∃ extra : list text,
    match rounded with
    | Some r =>
        if Req_dec_T r 0 then styleAttrs ++ four
        else (styleAttrs ++ four) ++ [attr "rx" (Num r)]
    | None => styleAttrs ++ four
    end = (styleAttrs ++ four) ++ extra).
  { destruct rounded as [r|]; [destruct (Req_dec_T r 0)|].
    - exists []. by rewrite app_nil_r.
    - by eexists.
    - exists []. by rewrite app_nil_r. }
  destruct Hrx as [extra ->].
  edestruct Hsplit as (pre & post & ->); [| |exists pre, post]; try done.
  eexists _, _. split; [reflexivity|]. by simpl.
Qed.

Lemma rectangle_drawn_on_its_bounds_witness :
  ∃ pre post x y,
    layerToSvg (shaped "r" (rectangle 40 20 (Some 3)) centered) 200 200
      = pre ++ join " " [attr "x" (Num x); attr "y" (Num y);
                          attr "width" (Num 40); attr "height" (Num 20)]
            ++ post
    ∧ x = Bounds.left (calculateBounds (rectangle 40 20 (Some 3)) 200 200).
Proof.
  destruct (rectangle_drawn_on_its_bounds
              (shaped "r" (rectangle 40 20 (Some 3)) centered) 40 20 (Some 3) 200 200 eq_refl)
    as (pre & post & x & y & Hsvg & Hx & _).
  by exists pre, post, x, y.
Defined.

End DrawnRectangle.
